(** * Glyph-to-vertex assembly of [main.cpp]

    A shallow embedding of [insertGlyphCharacter] and [insertString]
    (main.cpp, lines 789-835) together with the data they read
    ([MySegment], [MyContour], [MyGlyph] of the glyph extractor) and the
    global vertex buffer [vertices] they append to.

    The coordinates are C++ [float]s.  The two functions only ever add and
    multiply them and pass the literal [0]; the development is therefore
    stated over an arbitrary carrier with these three operations
    ([FloatOps]), so that every theorem holds in particular for IEEE
    binary32 with its rounding.  No algebraic law of the carrier is used. *)

From Stdlib Require Import Bool Ascii String List ZArith Lia.
From Stdlib Require Import QArith.
Import ListNotations.
Open Scope Z_scope.

(* ------------------------------------------------------------------ *)
(** ** Arithmetic of the coordinate type *)

Class FloatOps (F : Type) : Type := {
  fadd  : F -> F -> F;   (* operator+ on float *)
  fmul  : F -> F -> F;   (* operator* on float *)
  fzero : F              (* the literal 0 converted to float *)
}.

(* ------------------------------------------------------------------ *)
(** ** Outline data (fonts/GlyphExtractor.h) *)

(** Modelled from the spec: the declaration of [MySegment] (header
    fonts/GlyphExtractor.h is not part of the sources).  The spec gives a
    segment a [degree] and an ordered sequence of control points; main.cpp
    reads them as [mySegment.x[k]], [mySegment.y[k]] and
    [mySegment.degree], an [int]. *)
Record MySegment (F : Type) : Type := mkSegment {
  x : list F;
  y : list F;
  degree : Z
}.
Arguments mkSegment {F}.
Arguments x {F}.
Arguments y {F}.
Arguments degree {F}.

(** Modelled from the spec: [MyContour] is an ordered sequence of segments
    (main.cpp uses [size()] and [operator[]] on it). *)
Definition MyContour (F : Type) : Type := list (MySegment F).

(** Modelled from the spec: [MyGlyph] is an ordered sequence of contours
    and the scalar [advance]. *)
Record MyGlyph (F : Type) : Type := mkGlyph {
  contours : list (MyContour F);
  advance : F
}.
Arguments mkGlyph {F}.
Arguments contours {F}.
Arguments advance {F}.

(** [enum BezierCurve] (main.cpp, line 40). *)
Inductive BezierCurve : Type := CUBIC | QUADRATIC.

Definition BezierCurve_eqb (a b : BezierCurve) : bool :=
  match a, b with
  | CUBIC, CUBIC | QUADRATIC, QUADRATIC => true
  | _, _ => false
  end.

(** The process-wide variables the two functions read and never write:
    the glyph extractor (seen through its [ExtractGlyph] method, the loaded
    font), [bezierType], [fontShiftBy], [fontYShiftBy], [fontScaleBy]. *)
Record Globals (F : Type) : Type := mkGlobals {
  ExtractGlyph : ascii -> MyGlyph F;
  bezierType   : BezierCurve;
  fontShiftBy  : F;
  fontYShiftBy : F;
  fontScaleBy  : F
}.
Arguments mkGlobals {F}.
Arguments ExtractGlyph {F}.
Arguments bezierType {F}.
Arguments fontShiftBy {F}.
Arguments fontYShiftBy {F}.
Arguments fontScaleBy {F}.

(** The patch size minus one that goes with a [bezierType]
    ([glPatchParameteri(GL_PATCH_VERTICES, 3)] for QUADRATIC, [4] for
    CUBIC in the font loaders). *)
Definition targetDegree (b : BezierCurve) : Z :=
  match b with CUBIC => 3 | QUADRATIC => 2 end.

(** The NUL character and [std::string::c_str]. *)
Definition NUL : ascii := Ascii.zero.

Definition c_str (text : string) : list ascii :=
  list_ascii_of_string text ++ [NUL].

(** [strcpy(dst, src)]: copies [src] up to and including its first NUL
    over the front of [dst]; the rest of [dst] keeps what it held. *)
Fixpoint strcpy (dst src : list ascii) : list ascii :=
  match src, dst with
  | c :: src', _ :: dst' =>
      c :: (if Ascii.eqb c NUL then dst' else strcpy dst' src')
  | _, _ => dst
  end.

(** [char textCharArr[textLenght + 1]; strcpy(textCharArr, text.c_str());]
    The array is not initialised: [uninit i] stands for what byte [i]
    holds before the copy. *)
Definition textCharArr (uninit : nat -> ascii) (text : string) : list ascii :=
  let textLenght := String.length text in
  strcpy (map uninit (seq 0 (textLenght + 1))) (c_str text).

Section Assembler.

Context {F : Type} `{FloatOps F}.

(** [glm::vec2] *)
Definition vec2 : Type := (F * F)%type.

(* ---------------------------------------------------------------- *)
(** ** The state: the global [vector<vec2> vertices]

    A computation takes the buffer and gives a result and the new
    buffer, or nothing when it reads an array outside its bounds. *)

Definition M (A : Type) : Type := list vec2 -> option (A * list vec2).

Definition ret {A : Type} (a : A) : M A := fun vs => Some (a, vs).

Definition bind {A B : Type} (m : M A) (k : A -> M B) : M B :=
  fun vs => match m vs with
            | Some (a, vs') => k a vs'
            | None => None
            end.

(** [vertices.push_back(v)] *)
Definition push_back (v : vec2) : M unit :=
  fun vs => Some (tt, vs ++ [v]).

(** [a[k]] on an array *)
Definition index {A : Type} (a : list A) (k : nat) : M A :=
  fun vs => match nth_error a k with
            | Some v => Some (v, vs)
            | None => None
            end.

(** A [for] loop whose body runs once for each element of [l], in
    order. *)
Fixpoint for_each {A : Type} (l : list A) (body : A -> M unit) : M unit :=
  match l with
  | [] => ret tt
  | a :: l' => bind (body a) (fun _ => for_each l' body)
  end.

(** A [for] loop that also updates a local variable. *)
Fixpoint for_acc {A L : Type} (l : list A) (acc : L)
         (body : A -> L -> M L) : M L :=
  match l with
  | [] => ret acc
  | a :: l' => bind (body a acc) (fun acc' => for_acc l' acc' body)
  end.

Variable g : Globals F.

(* ---------------------------------------------------------------- *)
(** ** [insertGlyphCharacter] (main.cpp, lines 789-823) *)

(** The statement that occurs five times in the loop body:
    [vertices.push_back(vec2((mySegment.x[k] + advance + shiftToCentre)
    * scaleToFit, (mySegment.y[k] + fontYShiftBy) * scaleToFit))]. *)
Definition push_vertex (mySegment : MySegment F) (k : nat)
           (advance shiftToCentre scaleToFit : F) : M unit :=
  bind (index (x mySegment) k) (fun xk =>
  bind (index (y mySegment) k) (fun yk =>
  push_back (fmul (fadd (fadd xk advance) shiftToCentre) scaleToFit,
             fmul (fadd yk (fontYShiftBy g)) scaleToFit))).

(** The body of the loop on [k] (lines 801-817). *)
Definition insertPoint (mySegment : MySegment F) (k : nat)
           (advance shiftToCentre scaleToFit : F) : M unit :=
  if (degree mySegment =? 1) && BezierCurve_eqb (bezierType g) CUBIC then
    bind (push_vertex mySegment k advance shiftToCentre scaleToFit) (fun _ =>
    push_vertex mySegment k advance shiftToCentre scaleToFit)
  else if (degree mySegment =? 1)
          && BezierCurve_eqb (bezierType g) QUADRATIC then
    bind (if Nat.eqb k 0
          then push_vertex mySegment k advance shiftToCentre scaleToFit
          else ret tt) (fun _ =>
    push_vertex mySegment k advance shiftToCentre scaleToFit)
  else
    push_vertex mySegment k advance shiftToCentre scaleToFit.

(** [for (int k = 0; k <= mySegment.degree; k++)] (line 799): the body
    runs for k = 0, ..., degree, not at all when degree is negative. *)
Definition insertSegment (advance shiftToCentre scaleToFit : F)
           (mySegment : MySegment F) : M unit :=
  for_each (seq 0 (Z.to_nat (degree mySegment + 1)))
           (fun k => insertPoint mySegment k advance shiftToCentre scaleToFit).

(** [for (int j = 0; j < myContour.size(); j++)] (line 796). *)
Definition insertContour (advance shiftToCentre scaleToFit : F)
           (myContour : MyContour F) : M unit :=
  for_each myContour (insertSegment advance shiftToCentre scaleToFit).

(** The function: extract the glyph, run the loop on the contours
    (line 793), return [myGlyph.advance].  The global [myGlyph] is only
    written and read inside the call, so it is a local here; the
    parameter [advance] is [advance0], the name being taken by the field
    of the glyph. *)
Definition insertGlyphCharacter (charToInsert : ascii)
           (advance0 shiftToCentre scaleToFit : F) : M F :=
  let myGlyph := ExtractGlyph g charToInsert in
  bind (for_each (contours myGlyph)
                 (insertContour advance0 shiftToCentre scaleToFit)) (fun _ =>
  ret (advance myGlyph)).

(* ---------------------------------------------------------------- *)
(** ** [insertString] (main.cpp, lines 825-835) *)

(** The body of [insertString]; the result is the value the local
    variable [advanceBy] holds when the body ends. *)
Definition insertString_advanceBy (uninit : nat -> ascii) (text : string)
  : M F :=
  let textLenght := String.length text in
  let buf := textCharArr uninit text in
  bind (index buf 0) (fun c0 =>
  bind (insertGlyphCharacter c0 fzero (fontShiftBy g) (fontScaleBy g))
       (fun advanceBy =>
  for_acc (seq 1 (textLenght - 1)) advanceBy (fun i advanceBy =>
    bind (index buf i) (fun ci =>
    bind (insertGlyphCharacter ci advanceBy (fontShiftBy g) (fontScaleBy g))
         (fun a =>
    ret (fadd advanceBy a)))))).

(** [void insertString(string text)]: the body, its local dropped. *)
Definition insertString (uninit : nat -> ascii) (text : string) : M unit :=
  bind (insertString_advanceBy uninit text) (fun _ => ret tt).

(* ---------------------------------------------------------------- *)
(** ** What a run appends, as lists *)

(** Indices 0..degree of both arrays exist. *)
Definition wf_segment (s : MySegment F) : bool :=
  (degree s <? Z.of_nat (List.length (x s)))
  && (degree s <? Z.of_nat (List.length (y s))).

Definition wf_contour (c : MyContour F) : bool := forallb wf_segment c.

Definition wf_glyph (gl : MyGlyph F) : bool :=
  forallb wf_contour (contours gl).

(** The control points 0..degree of a segment. *)
Definition control_points (s : MySegment F) : list (F * F) :=
  firstn (Z.to_nat (degree s + 1)) (combine (x s) (y s)).

(** The coordinate transform of one control point. *)
Definition transform (advance shiftToCentre scaleToFit : F) (p : F * F)
  : vec2 :=
  (fmul (fadd (fadd (fst p) advance) shiftToCentre) scaleToFit,
   fmul (fadd (snd p) (fontYShiftBy g)) scaleToFit).

(** The control points of a segment, with the repetitions of the loop
    body. *)
Definition expand (s : MySegment F) : list (F * F) :=
  if degree s =? 1 then
    match bezierType g with
    | CUBIC => flat_map (fun p => [p; p]) (control_points s)
    | QUADRATIC =>
        match control_points s with
        | p :: ps => p :: p :: ps
        | [] => []
        end
    end
  else control_points s.

(** What the segments [ss], in order, make a run append. *)
Definition emitted (advance shiftToCentre scaleToFit : F)
           (ss : list (MySegment F)) : list vec2 :=
  map (transform advance shiftToCentre scaleToFit) (flat_map expand ss).

(** All the segments of a glyph, contour after contour. *)
Definition segments (gl : MyGlyph F) : list (MySegment F) :=
  concat (contours gl).

End Assembler.

Arguments M : clear implicits.
Arguments vec2 : clear implicits.

Section SpecWording.

Context {F : Type} `{FloatOps F}.

(** The promotion of a line to a quadratic patch as the specification
    words it: three points [p0; p0; p1] for a line that opens the
    contour's point stream, two points [p0; p1] for a later one.  It is
    written from the specification, to be compared with [expand]. *)
Definition spec_quadratic_line (first : bool) (s : MySegment F)
  : list (F * F) :=
  match control_points s with
  | p0 :: p1 :: _ => if first then [p0; p0; p1] else [p0; p1]
  | _ => []
  end.

Fixpoint spec_quadratic_contour (first : bool) (c : MyContour F)
  : list (F * F) :=
  match c with
  | [] => []
  | s :: c' =>
      (if degree s =? 1 then spec_quadratic_line first s
       else control_points s)
      ++ spec_quadratic_contour false c'
  end.

(** The sum of a non-empty run of advances the way [advanceBy]
    accumulates it: the first advance, then [+=] for each later one. *)
Definition accumulate (first : F) (rest : list F) : F :=
  fold_left fadd rest first.

(** The string assembly as the specification words it, on the
    characters themselves: each character's glyph is inserted at the
    running accumulator, with the same shift and scale, and its
    returned advance is added to the accumulator. *)
Definition spec_emitRest (g : Globals F) (cs : list ascii) (acc : F)
  : M F F :=
  for_acc cs acc (fun c acc =>
    bind (insertGlyphCharacter g c acc (fontShiftBy g) (fontScaleBy g))
         (fun a => ret (fadd acc a))).

(** The first character gets the offset 0 and its advance opens the
    accumulator. *)
Definition spec_emitString (g : Globals F) (c0 : ascii) (cs : list ascii)
  : M F F :=
  bind (insertGlyphCharacter g c0 fzero (fontShiftBy g) (fontScaleBy g))
       (spec_emitRest g cs).

(** What the characters [cs] append when the accumulator holds
    [offset] before the first of them. *)
Fixpoint string_emitted (g : Globals F) (offset : F) (cs : list ascii)
  : list (vec2 F) :=
  match cs with
  | [] => []
  | c :: cs' =>
      emitted g offset (fontShiftBy g) (fontScaleBy g)
              (segments (ExtractGlyph g c))
      ++ string_emitted g (fadd offset (advance (ExtractGlyph g c))) cs'
  end.

(** The globals with another [fontYShiftBy]. *)
Definition with_fontYShiftBy (g : Globals F) (v : F) : Globals F :=
  mkGlobals (ExtractGlyph g) (bezierType g) (fontShiftBy g) v
            (fontScaleBy g).

End SpecWording.

(* ------------------------------------------------------------------ *)
(** ** A concrete carrier and a small font, for evaluation

    Integers with exact [+] and [*]: on small integers binary32 arithmetic
    is exact as well, so these runs are also runs of the C++ program. *)

#[export] Instance Z_FloatOps : FloatOps Z :=
  {| fadd := Z.add; fmul := Z.mul; fzero := 0 |}.

Definition line (x0 y0 x1 y1 : Z) : MySegment Z :=
  mkSegment [x0; x1] [y0; y1] 1.

Definition quadratic (x0 y0 x1 y1 x2 y2 : Z) : MySegment Z :=
  mkSegment [x0; x1; x2] [y0; y1; y2] 2.

Definition cubic (x0 y0 x1 y1 x2 y2 x3 y3 : Z) : MySegment Z :=
  mkSegment [x0; x1; x2; x3] [y0; y1; y2; y3] 3.

(** "A": one contour of two lines, a triangle top. *)
Definition glyph_A : MyGlyph Z :=
  mkGlyph [[line 0 0 2 4; line 2 4 4 0]] 5.

(** "B": a line and a quadratic arc. *)
Definition glyph_B : MyGlyph Z :=
  mkGlyph [[line 0 0 0 4; quadratic 0 4 3 2 0 0]] 3.

(** "Q": two contours of quadratic arcs only. *)
Definition glyph_Q : MyGlyph Z :=
  mkGlyph [[quadratic 0 0 2 4 4 0; quadratic 4 0 2 (-4) 0 0];
           [quadratic 1 0 2 1 3 0]] 6.

(** "C": one contour of cubic arcs only. *)
Definition glyph_C : MyGlyph Z :=
  mkGlyph [[cubic 0 0 1 3 3 3 4 0; cubic 4 0 3 (-3) 1 (-3) 0 0]] 4.

(** Character code 0: the box of a missing glyph. *)
Definition glyph_notdef : MyGlyph Z :=
  mkGlyph [[line 0 0 2 0; line 2 0 2 3; line 2 3 0 3; line 0 3 0 0]] 2.

Definition glyph_empty : MyGlyph Z := mkGlyph [] 0.

Definition demo_font (c : ascii) : MyGlyph Z :=
  if Ascii.eqb c "A" then glyph_A
  else if Ascii.eqb c "B" then glyph_B
  else if Ascii.eqb c "Q" then glyph_Q
  else if Ascii.eqb c "C" then glyph_C
  else if Ascii.eqb c NUL then glyph_notdef
  else glyph_empty.

(** The same font with a wider "A". *)
Definition wide_font (c : ascii) : MyGlyph Z :=
  if Ascii.eqb c "A" then mkGlyph (contours glyph_A) 7 else demo_font c.

Definition demo_quadratic : Globals Z :=
  mkGlobals demo_font QUADRATIC (-3) 1 2.

Definition demo_cubic : Globals Z :=
  mkGlobals demo_font CUBIC (-3) 1 2.

Definition wide_quadratic : Globals Z :=
  mkGlobals wide_font QUADRATIC (-3) 1 2.

(** Some content of the stack before [textCharArr] is written. *)
Definition demo_uninit (i : nat) : ascii := "?"%char.

(* ------------------------------------------------------------------ *)
(** ** The program around the assembler

    The font loaders, the two hard-coded figures, the keyboard callback
    and the reload step of the main loop (main.cpp, lines 330-566,
    637-643, 837-912), over all the process-wide variables. *)

(** Arithmetic the callers add to [FloatOps]: literals, the conversions
    between [float] and [double], the [double] operations of the
    compound assignments, and the two tests on [float]s.  As before no
    law of these operations is used. *)
Class DoubleOps (F D : Type) : Type := {
  flit     : Q -> F;        (* a literal of type float or int, as a float *)
  dlit     : Q -> D;        (* a literal of type double *)
  promote  : F -> D;        (* float to double *)
  demote   : D -> F;        (* double to float *)
  dadd     : D -> D -> D;   (* operator+ on double *)
  dsub     : D -> D -> D;   (* operator- on double *)
  dmul     : D -> D -> D;   (* operator* on double *)
  dle      : D -> D -> bool;  (* operator<= on double *)
  fgt      : F -> F -> bool;  (* operator> on float *)
  fnonzero : F -> bool        (* a float used as a condition *)
}.

(** The constants of GLFW/glfw3.h that [KeyCallback] compares with; the
    header is not part of the sources, so they are a parameter. *)
Record GLFW : Type := mkGLFW {
  GLFW_PRESS : Z;
  GLFW_KEY_ESCAPE : Z;
  GLFW_KEY_Q : Z;
  GLFW_KEY_W : Z;
  GLFW_KEY_A : Z;
  GLFW_KEY_S : Z;
  GLFW_KEY_D : Z;
  GLFW_KEY_Z : Z;
  GLFW_KEY_X : Z;
  GLFW_KEY_C : Z;
  GLFW_KEY_O : Z;
  GLFW_KEY_P : Z
}.

(** The keys [KeyCallback] tests for, in the order of its branches. *)
Definition bound_keys (k : GLFW) : list Z :=
  [GLFW_KEY_ESCAPE k; GLFW_KEY_Q k; GLFW_KEY_W k; GLFW_KEY_A k;
   GLFW_KEY_S k; GLFW_KEY_D k; GLFW_KEY_Z k; GLFW_KEY_X k; GLFW_KEY_C k;
   GLFW_KEY_O k; GLFW_KEY_P k].

(** [enum FontLoaded] (main.cpp, line 46). *)
Inductive FontLoaded : Type :=
  LORA_BOLD_ITALIC | INCONSOLATA | QARMIC_SANS | ALEX_BRUSH | NO_FONT.

Definition FontLoaded_eqb (a b : FontLoaded) : bool :=
  match a, b with
  | LORA_BOLD_ITALIC, LORA_BOLD_ITALIC | INCONSOLATA, INCONSOLATA
  | QARMIC_SANS, QARMIC_SANS | ALEX_BRUSH, ALEX_BRUSH
  | NO_FONT, NO_FONT => true
  | _, _ => false
  end.

(** [glm::vec3] *)
Definition vec3 (F : Type) : Type := (F * F * F)%type.

Module App.

(** The process-wide variables of main.cpp (lines 68-89), the glyph
    extractor seen through [ExtractGlyph], and what the functions below
    change outside the program: the patch size given to
    [glPatchParameteri(GL_PATCH_VERTICES, .)], the flag of
    [glfwSetWindowShouldClose] and the lines written to [cout]. *)
Record state (F : Type) : Type := mkState {
  vertices : list (vec2 F);
  colours : list (vec3 F);
  cubicBezier : F;
  quadraticBezier : F;
  drawPoints : F;
  fontLoaded : FontLoaded;
  scaleBy : F;
  shiftBy : F;
  fontShiftBy : F;
  fontYShiftBy : F;
  fontScaleBy : F;
  resetScroll : F;
  bezierType : BezierCurve;
  textIsScrolling : bool;
  textScrollSpeed : F;
  glyphExtractor : ascii -> MyGlyph F;
  patchVertices : Z;
  windowShouldClose : bool;
  cout : list string
}.
Arguments mkState {F}.
Arguments vertices {F}.
Arguments colours {F}.
Arguments cubicBezier {F}.
Arguments quadraticBezier {F}.
Arguments drawPoints {F}.
Arguments fontLoaded {F}.
Arguments scaleBy {F}.
Arguments shiftBy {F}.
Arguments fontShiftBy {F}.
Arguments fontYShiftBy {F}.
Arguments fontScaleBy {F}.
Arguments resetScroll {F}.
Arguments bezierType {F}.
Arguments textIsScrolling {F}.
Arguments textScrollSpeed {F}.
Arguments glyphExtractor {F}.
Arguments patchVertices {F}.
Arguments windowShouldClose {F}.
Arguments cout {F}.

Definition set_vertices {F : Type} (v : list (vec2 F)) (st : state F) : state F :=
  mkState v (colours st) (cubicBezier st) (quadraticBezier st)
          (drawPoints st) (fontLoaded st) (scaleBy st) (shiftBy st)
          (fontShiftBy st) (fontYShiftBy st) (fontScaleBy st)
          (resetScroll st) (bezierType st) (textIsScrolling st)
          (textScrollSpeed st) (glyphExtractor st) (patchVertices st)
          (windowShouldClose st) (cout st).

Definition set_colours {F : Type} (v : list (vec3 F)) (st : state F) : state F :=
  mkState (vertices st) v (cubicBezier st) (quadraticBezier st)
          (drawPoints st) (fontLoaded st) (scaleBy st) (shiftBy st)
          (fontShiftBy st) (fontYShiftBy st) (fontScaleBy st)
          (resetScroll st) (bezierType st) (textIsScrolling st)
          (textScrollSpeed st) (glyphExtractor st) (patchVertices st)
          (windowShouldClose st) (cout st).

Definition set_cubicBezier {F : Type} (v : F) (st : state F) : state F :=
  mkState (vertices st) (colours st) v (quadraticBezier st) (drawPoints st)
          (fontLoaded st) (scaleBy st) (shiftBy st) (fontShiftBy st)
          (fontYShiftBy st) (fontScaleBy st) (resetScroll st)
          (bezierType st) (textIsScrolling st) (textScrollSpeed st)
          (glyphExtractor st) (patchVertices st) (windowShouldClose st)
          (cout st).

Definition set_quadraticBezier {F : Type} (v : F) (st : state F) : state F :=
  mkState (vertices st) (colours st) (cubicBezier st) v (drawPoints st)
          (fontLoaded st) (scaleBy st) (shiftBy st) (fontShiftBy st)
          (fontYShiftBy st) (fontScaleBy st) (resetScroll st)
          (bezierType st) (textIsScrolling st) (textScrollSpeed st)
          (glyphExtractor st) (patchVertices st) (windowShouldClose st)
          (cout st).

Definition set_fontLoaded {F : Type} (v : FontLoaded) (st : state F) : state F :=
  mkState (vertices st) (colours st) (cubicBezier st) (quadraticBezier st)
          (drawPoints st) v (scaleBy st) (shiftBy st) (fontShiftBy st)
          (fontYShiftBy st) (fontScaleBy st) (resetScroll st)
          (bezierType st) (textIsScrolling st) (textScrollSpeed st)
          (glyphExtractor st) (patchVertices st) (windowShouldClose st)
          (cout st).

Definition set_scaleBy {F : Type} (v : F) (st : state F) : state F :=
  mkState (vertices st) (colours st) (cubicBezier st) (quadraticBezier st)
          (drawPoints st) (fontLoaded st) v (shiftBy st) (fontShiftBy st)
          (fontYShiftBy st) (fontScaleBy st) (resetScroll st)
          (bezierType st) (textIsScrolling st) (textScrollSpeed st)
          (glyphExtractor st) (patchVertices st) (windowShouldClose st)
          (cout st).

Definition set_shiftBy {F : Type} (v : F) (st : state F) : state F :=
  mkState (vertices st) (colours st) (cubicBezier st) (quadraticBezier st)
          (drawPoints st) (fontLoaded st) (scaleBy st) v (fontShiftBy st)
          (fontYShiftBy st) (fontScaleBy st) (resetScroll st)
          (bezierType st) (textIsScrolling st) (textScrollSpeed st)
          (glyphExtractor st) (patchVertices st) (windowShouldClose st)
          (cout st).

Definition set_fontShiftBy {F : Type} (v : F) (st : state F) : state F :=
  mkState (vertices st) (colours st) (cubicBezier st) (quadraticBezier st)
          (drawPoints st) (fontLoaded st) (scaleBy st) (shiftBy st) v
          (fontYShiftBy st) (fontScaleBy st) (resetScroll st)
          (bezierType st) (textIsScrolling st) (textScrollSpeed st)
          (glyphExtractor st) (patchVertices st) (windowShouldClose st)
          (cout st).

Definition set_fontYShiftBy {F : Type} (v : F) (st : state F) : state F :=
  mkState (vertices st) (colours st) (cubicBezier st) (quadraticBezier st)
          (drawPoints st) (fontLoaded st) (scaleBy st) (shiftBy st)
          (fontShiftBy st) v (fontScaleBy st) (resetScroll st)
          (bezierType st) (textIsScrolling st) (textScrollSpeed st)
          (glyphExtractor st) (patchVertices st) (windowShouldClose st)
          (cout st).

Definition set_fontScaleBy {F : Type} (v : F) (st : state F) : state F :=
  mkState (vertices st) (colours st) (cubicBezier st) (quadraticBezier st)
          (drawPoints st) (fontLoaded st) (scaleBy st) (shiftBy st)
          (fontShiftBy st) (fontYShiftBy st) v (resetScroll st)
          (bezierType st) (textIsScrolling st) (textScrollSpeed st)
          (glyphExtractor st) (patchVertices st) (windowShouldClose st)
          (cout st).

Definition set_resetScroll {F : Type} (v : F) (st : state F) : state F :=
  mkState (vertices st) (colours st) (cubicBezier st) (quadraticBezier st)
          (drawPoints st) (fontLoaded st) (scaleBy st) (shiftBy st)
          (fontShiftBy st) (fontYShiftBy st) (fontScaleBy st) v
          (bezierType st) (textIsScrolling st) (textScrollSpeed st)
          (glyphExtractor st) (patchVertices st) (windowShouldClose st)
          (cout st).

Definition set_bezierType {F : Type} (v : BezierCurve) (st : state F) : state F :=
  mkState (vertices st) (colours st) (cubicBezier st) (quadraticBezier st)
          (drawPoints st) (fontLoaded st) (scaleBy st) (shiftBy st)
          (fontShiftBy st) (fontYShiftBy st) (fontScaleBy st)
          (resetScroll st) v (textIsScrolling st) (textScrollSpeed st)
          (glyphExtractor st) (patchVertices st) (windowShouldClose st)
          (cout st).

Definition set_textIsScrolling {F : Type} (v : bool) (st : state F) : state F :=
  mkState (vertices st) (colours st) (cubicBezier st) (quadraticBezier st)
          (drawPoints st) (fontLoaded st) (scaleBy st) (shiftBy st)
          (fontShiftBy st) (fontYShiftBy st) (fontScaleBy st)
          (resetScroll st) (bezierType st) v (textScrollSpeed st)
          (glyphExtractor st) (patchVertices st) (windowShouldClose st)
          (cout st).

Definition set_textScrollSpeed {F : Type} (v : F) (st : state F) : state F :=
  mkState (vertices st) (colours st) (cubicBezier st) (quadraticBezier st)
          (drawPoints st) (fontLoaded st) (scaleBy st) (shiftBy st)
          (fontShiftBy st) (fontYShiftBy st) (fontScaleBy st)
          (resetScroll st) (bezierType st) (textIsScrolling st) v
          (glyphExtractor st) (patchVertices st) (windowShouldClose st)
          (cout st).

Definition set_glyphExtractor {F : Type} (v : ascii -> MyGlyph F) (st : state F) : state F :=
  mkState (vertices st) (colours st) (cubicBezier st) (quadraticBezier st)
          (drawPoints st) (fontLoaded st) (scaleBy st) (shiftBy st)
          (fontShiftBy st) (fontYShiftBy st) (fontScaleBy st)
          (resetScroll st) (bezierType st) (textIsScrolling st)
          (textScrollSpeed st) v (patchVertices st) (windowShouldClose st)
          (cout st).

Definition set_patchVertices {F : Type} (v : Z) (st : state F) : state F :=
  mkState (vertices st) (colours st) (cubicBezier st) (quadraticBezier st)
          (drawPoints st) (fontLoaded st) (scaleBy st) (shiftBy st)
          (fontShiftBy st) (fontYShiftBy st) (fontScaleBy st)
          (resetScroll st) (bezierType st) (textIsScrolling st)
          (textScrollSpeed st) (glyphExtractor st) v (windowShouldClose st)
          (cout st).

Definition set_windowShouldClose {F : Type} (v : bool) (st : state F) : state F :=
  mkState (vertices st) (colours st) (cubicBezier st) (quadraticBezier st)
          (drawPoints st) (fontLoaded st) (scaleBy st) (shiftBy st)
          (fontShiftBy st) (fontYShiftBy st) (fontScaleBy st)
          (resetScroll st) (bezierType st) (textIsScrolling st)
          (textScrollSpeed st) (glyphExtractor st) (patchVertices st) v
          (cout st).

Definition set_cout {F : Type} (v : list string) (st : state F) : state F :=
  mkState (vertices st) (colours st) (cubicBezier st) (quadraticBezier st)
          (drawPoints st) (fontLoaded st) (scaleBy st) (shiftBy st)
          (fontShiftBy st) (fontYShiftBy st) (fontScaleBy st)
          (resetScroll st) (bezierType st) (textIsScrolling st)
          (textScrollSpeed st) (glyphExtractor st) (patchVertices st)
          (windowShouldClose st) v.

(** The variables [insertString] reads. *)
Definition globals {F : Type} (st : state F) : Globals F :=
  mkGlobals (glyphExtractor st) (bezierType st) (fontShiftBy st)
            (fontYShiftBy st) (fontScaleBy st).

Section Program.

Context {F D : Type} `{FloatOps F} `{DoubleOps F D}.

(** [glyphExtractor.LoadFontFile(path)]: whether it succeeded and the
    extractor it leaves.  The glyph extractor is not part of the
    sources. *)
Variable LoadFontFile :
  string -> (ascii -> MyGlyph F) -> bool * (ascii -> MyGlyph F).

(** What the stack holds where [insertString] puts [textCharArr]. *)
Variable uninit : nat -> ascii.

Variable glfw : GLFW.

(** A [double] literal stored into a [float]. *)
Definition fd (q : Q) : F := demote (dlit q).

(** [if (!glyphExtractor.LoadFontFile(path)) { cout << msg << endl; }] *)
Definition load_font (path msg : string) (st : state F) : state F :=
  let (ok, extractor) := LoadFontFile path (glyphExtractor st) in
  let st := set_glyphExtractor extractor st in
  if ok then st else set_cout (cout st ++ [msg]) st.

(** [insertString(toPass); for (int i = 0; i < vertices.size(); i++)
    colours.push_back(vec3(1.f, 1.f, 1.f));] *)
Definition insert_and_colour (toPass : string) (st : state F)
  : option (state F) :=
  match insertString (globals st) uninit toPass (vertices st) with
  | None => None
  | Some (_, vs) =>
      let st := set_vertices vs st in
      Some (fold_left
              (fun st (_ : nat) =>
                 set_colours (colours st ++ [(flit 1, flit 1, flit 1)]) st)
              (seq 0 (List.length (vertices st))) st)
  end.

(** The block of lines 468-479, 505-516 and 542-553: the text and the
    shift of a frame, scrolling or not. *)
Definition choose_text (static_shift static_scale : F) (st : state F)
  : string * state F :=
  if textIsScrolling st then
    ("The quick brown fox jumps over the lazy dog."%string,
     if fgt (fontShiftBy st) (resetScroll st) then
       set_fontShiftBy
         (demote (dsub (promote (fontShiftBy st))
                       (dmul (dlit 0.1) (promote (textScrollSpeed st))))) st
     else set_fontShiftBy (fd (-0.3)) st)
  else
    ("Farzam Noori"%string,
     set_fontScaleBy static_scale (set_fontShiftBy static_shift st)).

(** The last five statements of a loader: the uniforms and the patch
    size. *)
Definition quadratic_flags (st : state F) : state F :=
  let st := set_cubicBezier (flit 0) st in
  let st := set_quadraticBezier (flit 1) st in
  let st := set_scaleBy (flit 1) st in
  let st := set_shiftBy (flit 0) st in
  set_patchVertices 3 st.

Definition cubic_flags (st : state F) : state F :=
  let st := set_cubicBezier (flit 1) st in
  let st := set_quadraticBezier (flit 0) st in
  let st := set_scaleBy (flit 1) st in
  let st := set_shiftBy (flit 0) st in
  set_patchVertices 4 st.

(** [loadLoraBoldItalic] (lines 432-455). *)
Definition loadLoraBoldItalic (st : state F) : option (state F) :=
  let st := load_font "fonts/lora/Lora-BoldItalic.ttf"
                      "Failed to load 'alex-brush.ttf' file" st in
  let st := set_vertices [] st in
  let st := set_colours [] st in
  let st := set_bezierType QUADRATIC st in
  let toPass := "Farzam Noori"%string in
  let st := set_fontShiftBy (flit (-3)) st in
  let st := set_fontScaleBy (fd 0.25) st in
  match insert_and_colour toPass st with
  | None => None
  | Some st => Some (quadratic_flags st)
  end.

(** [loadInconsolata] (lines 457-492). *)
Definition loadInconsolata (st : state F) : option (state F) :=
  let st := load_font "fonts/source-sans-pro/SourceSansPro-SemiboldIt.otf"
                      "Failed to load 'Inconsolata.otf' file" st in
  let st := set_vertices [] st in
  let st := set_colours [] st in
  let st := set_bezierType CUBIC st in
  let (toPass, st) := choose_text (flit (-2.7)) (fd 0.30) st in
  match insert_and_colour toPass st with
  | None => None
  | Some st => Some (cubic_flags st)
  end.

(** [loadQarmicSans] (lines 494-529). *)
Definition loadQarmicSans (st : state F) : option (state F) :=
  let st := load_font "fonts/Qarmic_sans_Abridged.ttf"
                      "Failed to load 'alex-brush.ttf' file" st in
  let st := set_vertices [] st in
  let st := set_colours [] st in
  let st := set_bezierType QUADRATIC st in
  let (toPass, st) := choose_text (flit (-3.3)) (fd 0.25) st in
  match insert_and_colour toPass st with
  | None => None
  | Some st => Some (quadratic_flags st)
  end.

(** [loadAlexBrush] (lines 531-566). *)
Definition loadAlexBrush (st : state F) : option (state F) :=
  let st := load_font "fonts/alex-brush/AlexBrush-Regular.ttf"
                      "Failed to load 'alex-brush.ttf' file" st in
  let st := set_vertices [] st in
  let st := set_colours [] st in
  let st := set_bezierType QUADRATIC st in
  let (toPass, st) := choose_text (flit (-2.5)) (fd 0.30) st in
  match insert_and_colour toPass st with
  | None => None
  | Some st => Some (quadratic_flags st)
  end.

(** [addVertices] (lines 837-886): the fish for CUBIC, the cup for
    QUADRATIC. *)
Definition addVertices (type : BezierCurve) (st : state F) : state F :=
  let st := set_vertices [] st in
  if BezierCurve_eqb type CUBIC then
    set_vertices
      (vertices st ++
       [(flit 1, flit 1); (flit 4, flit 0); (flit 6, flit 2);
        (flit 9, flit 1);
        (flit 8, flit 2); (flit 0, flit 8); (flit 0, flit (-2));
        (flit 8, flit 4);
        (flit 5, flit 3); (flit 3, flit 2); (flit 3, flit 3);
        (flit 5, flit 2);
        (flit 3, fd 2.2); (fd 3.5, fd 2.7); (fd 3.5, fd 3.3);
        (flit 3, fd 3.8);
        (fd 2.8, fd 3.5); (fd 2.4, fd 3.8); (fd 2.4, fd 3.2);
        (fd 2.8, fd 3.5)]) st
  else if BezierCurve_eqb type QUADRATIC then
    set_vertices
      (vertices st ++
       [(flit 1, flit 1); (flit 2, flit (-1)); (flit 0, flit (-1));
        (flit 0, flit (-1)); (flit (-2), flit (-1)); (flit (-1), flit 1);
        (flit (-1), flit 1); (flit 0, flit 1); (flit 1, flit 1);
        (fd 1.2, fd 0.5); (fd 2.5, fd 1.0); (fd 1.3, fd (-0.4))]) st
  else st.

(** [addColours] (lines 888-912): twenty-two [push_back]s. *)
Definition addColours (st : state F) : state F :=
  let r : vec3 F := (flit 1.0, flit 0.0, flit 0.0) in
  let g : vec3 F := (flit 0.0, flit 1.0, flit 0.0) in
  let b : vec3 F := (flit 0.0, flit 0.0, flit 1.0) in
  set_colours
    (colours st ++
     [r; g; b; r; g; b; r; g; b; r; g; b; b; r; g; b; r; g; b; r; g; b]) st.

(** [KeyCallback] (lines 330-430). *)
Definition KeyCallback (st : state F) (key scancode action mods : Z)
  : option (state F) :=
  let pressed := action =? GLFW_PRESS glfw in
  if (key =? GLFW_KEY_ESCAPE glfw) && pressed then
    Some (set_windowShouldClose true st)
  else if (key =? GLFW_KEY_Q glfw) && pressed then
    let st := set_fontLoaded NO_FONT st in
    let st := set_colours [] st in
    let st := set_bezierType QUADRATIC st in
    let st := addVertices (bezierType st) st in
    let st := addColours st in
    let st := set_cubicBezier (flit 0) st in
    let st := set_quadraticBezier (flit 1) st in
    let st := set_scaleBy (flit 0.35) st in
    let st := set_shiftBy (flit 0) st in
    let st := set_textIsScrolling false st in
    Some (set_patchVertices 3 st)
  else if (key =? GLFW_KEY_W glfw) && pressed then
    let st := set_fontLoaded NO_FONT st in
    let st := set_colours [] st in
    let st := set_bezierType CUBIC st in
    let st := addVertices (bezierType st) st in
    let st := addColours st in
    let st := set_cubicBezier (flit 1) st in
    let st := set_quadraticBezier (flit 0) st in
    let st := set_scaleBy (flit 0.125) st in
    let st := set_shiftBy (flit (-4.5)) st in
    let st := set_textIsScrolling false st in
    Some (set_patchVertices 4 st)
  else if (key =? GLFW_KEY_A glfw) && pressed then
    let st := set_fontLoaded INCONSOLATA st in
    let st := set_fontYShiftBy (fd (-0.4)) st in
    let st := set_textIsScrolling false st in
    loadInconsolata st
  else if (key =? GLFW_KEY_S glfw) && pressed then
    let st := set_fontLoaded LORA_BOLD_ITALIC st in
    let st := set_fontYShiftBy (fd (-0.4)) st in
    let st := set_textIsScrolling false st in
    loadLoraBoldItalic st
  else if (key =? GLFW_KEY_D glfw) && pressed then
    let st := set_fontLoaded QARMIC_SANS st in
    let st := set_fontYShiftBy (fd (-0.4)) st in
    let st := set_textIsScrolling false st in
    loadQarmicSans st
  else if (key =? GLFW_KEY_Z glfw) && pressed then
    let st := set_fontLoaded ALEX_BRUSH st in
    let st := set_textIsScrolling true st in
    let st := set_fontShiftBy (fd (-0.4)) st in
    let st := set_fontYShiftBy (fd (-0.3)) st in
    let st := set_fontScaleBy (flit 1.2) st in
    let st := set_resetScroll (fd (-14.9499)) st in
    loadAlexBrush st
  else if (key =? GLFW_KEY_X glfw) && pressed then
    let st := set_fontLoaded INCONSOLATA st in
    let st := set_textIsScrolling true st in
    let st := set_fontShiftBy (fd (-0.4)) st in
    let st := set_fontYShiftBy (fd (-0.3)) st in
    let st := set_fontScaleBy (flit 1.1) st in
    let st := set_resetScroll (fd (-19.965)) st in
    loadInconsolata st
  else if (key =? GLFW_KEY_C glfw) && pressed then
    let st := set_fontLoaded QARMIC_SANS st in
    let st := set_textIsScrolling true st in
    let st := set_fontShiftBy (fd (-0.4)) st in
    let st := set_fontYShiftBy (fd (-0.4)) st in
    let st := set_fontScaleBy (flit 0.9) st in
    let st := set_resetScroll (fd (-25.0238)) st in
    loadQarmicSans st
  else if (key =? GLFW_KEY_O glfw) && pressed then
    if dle (promote (textScrollSpeed st)) (dlit 0.01) then
      Some (set_textScrollSpeed (fd 0.01) st)
    else
      Some (set_textScrollSpeed
              (demote (dsub (promote (textScrollSpeed st)) (dlit 0.01))) st)
  else if (key =? GLFW_KEY_P glfw) && pressed then
    Some (set_textScrollSpeed
            (demote (dadd (promote (textScrollSpeed st)) (dlit 0.01))) st)
  else Some st.

(** The reload of the main loop (lines 637-643), run once a frame. *)
Definition reload (st : state F) : option (state F) :=
  if textIsScrolling st && FontLoaded_eqb (fontLoaded st) ALEX_BRUSH then
    loadAlexBrush st
  else if fnonzero (textScrollSpeed st)
          && FontLoaded_eqb (fontLoaded st) INCONSOLATA then
    loadInconsolata st
  else if fnonzero (textScrollSpeed st)
          && FontLoaded_eqb (fontLoaded st) QARMIC_SANS then
    loadQarmicSans st
  else Some st.

(** What happens to the program between two frames: a key event
    delivered by [glfwPollEvents], or the reload of the next frame. *)
Inductive event : Type :=
| Key (key scancode action mods : Z)
| Frame.

Definition step (st : state F) (e : event) : option (state F) :=
  match e with
  | Key key scancode action mods => KeyCallback st key scancode action mods
  | Frame => reload st
  end.

Fixpoint run (es : list event) (st : state F) : option (state F) :=
  match es with
  | [] => Some st
  | e :: es' =>
      match step st e with
      | Some st' => run es' st'
      | None => None
      end
  end.

(** The patch size, the two uniforms and the colours agree with the
    vertices: what [RenderScene] and [LoadGeometry] rely on. *)
Definition consistent (st : state F) : Prop :=
  (List.length (vertices st) <= List.length (colours st))%nat
  /\ (vertices st = []
      \/ (patchVertices st = targetDegree (bezierType st) + 1
          /\ cubicBezier st
             = flit (if BezierCurve_eqb (bezierType st) CUBIC then 1 else 0)
          /\ quadraticBezier st
             = flit (if BezierCurve_eqb (bezierType st) QUADRATIC
                     then 1 else 0))).

(** The four font loaders. *)
Definition loaders : list (state F -> option (state F)) :=
  [loadLoraBoldItalic; loadInconsolata; loadQarmicSans; loadAlexBrush].

(** The three of them that have a scrolling branch. *)
Definition scrolling_loaders : list (state F -> option (state F)) :=
  [loadInconsolata; loadQarmicSans; loadAlexBrush].

(** What a loader leaves: the vertices are what [insertString] appends
    to an empty buffer with the variables as they are now, there is one
    white colour for each vertex, and the patch size and the two uniforms
    go with [bezierType]. *)
Definition rebuilt (st : state F) : Prop :=
  (exists toPass,
      insertString (globals st) uninit toPass [] = Some (tt, vertices st))
  /\ colours st
     = repeat (flit 1, flit 1, flit 1) (List.length (vertices st))
  /\ patchVertices st = targetDegree (bezierType st) + 1
  /\ cubicBezier st
     = flit (if BezierCurve_eqb (bezierType st) CUBIC then 1 else 0)
  /\ quadraticBezier st
     = flit (if BezierCurve_eqb (bezierType st) QUADRATIC then 1 else 0).

End Program.

End App.

(** The globals with another [fontShiftBy]. *)
Definition with_fontShiftBy {F : Type} (g : Globals F) (v : F) : Globals F :=
  mkGlobals (ExtractGlyph g) (bezierType g) v (fontYShiftBy g)
            (fontScaleBy g).

(** The number of points one segment makes the loop on [k] append. *)
Definition segment_count {F : Type} (b : BezierCurve) (s : MySegment F)
  : nat :=
  if degree s =? 1 then Z.to_nat (targetDegree b + 1)
  else Z.to_nat (degree s + 1).

(* ------------------------------------------------------------------ *)
(** ** A second carrier and a second font, for runs of the program

    Exact rational arithmetic for [float] and [double] alike. *)

#[export] Instance Q_FloatOps : FloatOps Q :=
  {| fadd := fun a b => Qred (a + b)%Q;
     fmul := fun a b => Qred (a * b)%Q;
     fzero := 0%Q |}.

#[export] Instance Q_DoubleOps : DoubleOps Q Q :=
  {| flit := Qred;
     dlit := Qred;
     promote := fun a => a;
     demote := fun a => a;
     dadd := fun a b => Qred (a + b)%Q;
     dsub := fun a b => Qred (a - b)%Q;
     dmul := fun a b => Qred (a * b)%Q;
     dle := Qle_bool;
     fgt := fun a b => negb (Qle_bool a b);
     fnonzero := fun a => negb (Qeq_bool a 0%Q) |}.

Definition segment_to_Q (s : MySegment Z) : MySegment Q :=
  mkSegment (map inject_Z (x s)) (map inject_Z (y s)) (degree s).

Definition glyph_to_Q (gl : MyGlyph Z) : MyGlyph Q :=
  mkGlyph (map (map segment_to_Q) (contours gl)) (inject_Z (advance gl)).

(** A font of lines: a triangle top for "o", a box for "F", nothing
    but an advance for the other characters. *)
Definition text_font (c : ascii) : MyGlyph Q :=
  if Ascii.eqb c "o" then glyph_to_Q glyph_A
  else if Ascii.eqb c "F" then glyph_to_Q glyph_notdef
  else glyph_to_Q (mkGlyph [] 1).

(** The same over the integers. *)
Definition line_font (c : ascii) : MyGlyph Z :=
  if Ascii.eqb c "A" then glyph_A
  else if Ascii.eqb c NUL then glyph_notdef
  else mkGlyph [] 1.

Definition line_cubic : Globals Z := mkGlobals line_font CUBIC (-3) 1 2.

(** A glyph extractor that fails on the file of Lora and loads
    [text_font] from any other. *)
Definition demo_LoadFontFile (path : string) (e : ascii -> MyGlyph Q)
  : bool * (ascii -> MyGlyph Q) :=
  if String.eqb path "fonts/lora/Lora-BoldItalic.ttf" then (false, e)
  else (true, text_font).

(** The key codes and [GLFW_PRESS] as GLFW 3 defines them. *)
Definition glfw3 : GLFW := mkGLFW 1 256 81 87 65 83 68 90 88 67 79 80.

(** The variables when the main loop starts: zero-initialised, but for
    [textScrollSpeed = 0.05] and [drawPoints = 1.f], with both buffers
    empty. *)
Definition demo_start : App.state Q :=
  App.mkState [] [] 0%Q 0%Q 1%Q LORA_BOLD_ITALIC 0%Q 0%Q 0%Q 0%Q 0%Q 0%Q
              CUBIC false (Qred 0.05%Q) text_font 3 false [].

(** A text with a NUL in it. *)
Definition text_with_NUL (last : ascii) : string :=
  String "A" (String NUL (String last EmptyString)).

(** The state a run leaves, for the runs below that do return. *)
Definition after (o : option (App.state Q)) : App.state Q :=
  match o with
  | Some st => st
  | None => demo_start
  end.

Definition demo_loader : App.state Q -> option (App.state Q) :=
  App.loadInconsolata demo_LoadFontFile demo_uninit.

(** After the first run of [loadInconsolata], the text standing still. *)
Definition demo_static : App.state Q := after (demo_loader demo_start).

(** The variables after key A has set [fontLoaded], and after its run
    of [loadInconsolata]. *)
Definition demo_typed : App.state Q :=
  App.set_fontLoaded INCONSOLATA demo_start.

Definition demo_typed_static : App.state Q := after (demo_loader demo_typed).

(** The text set scrolling as key X does, and the state after the first
    frame. *)
Definition demo_scroll_start : App.state Q :=
  App.set_resetScroll (Qred (-19.965)%Q)
    (App.set_fontScaleBy (Qred 1.1%Q)
       (App.set_fontYShiftBy (Qred (-0.3)%Q)
          (App.set_fontShiftBy (Qred (-0.4)%Q)
             (App.set_textIsScrolling true
                (App.set_fontLoaded INCONSOLATA demo_start))))).

Definition demo_scrolling : App.state Q :=
  after (demo_loader demo_scroll_start).

(** Keys and frames: A, a frame, X, two frames, Q, a frame, P. *)
Definition demo_events : list App.event :=
  [App.Key 65 0 1 0; App.Frame; App.Key 88 0 1 0; App.Frame; App.Frame;
   App.Key 81 0 1 0; App.Frame; App.Key 80 0 1 0].

(* ------------------------------------------------------------------ *)
(** * Properties *)

Section Loops.

Context {F : Type}.

(** A loop whose body appends [out a] appends their concatenation. *)
Lemma for_each_emits {A : Type} (body : A -> M F unit)
      (out : A -> list (vec2 F)) (l : list A) :
  (forall a, In a l -> forall vs, body a vs = Some (tt, vs ++ out a)) ->
  forall vs, for_each l body vs = Some (tt, vs ++ flat_map out l).
Proof.
  induction l as [|a l IH]; intros Hbody vs; simpl.
  - unfold ret. now rewrite app_nil_r.
  - unfold bind. rewrite (Hbody a (or_introl eq_refl)).
    rewrite IH by (intros b Hb; apply Hbody; now right).
    now rewrite <- app_assoc.
Qed.

(** A loop whose body only appends only appends. *)
Lemma for_each_extends {A : Type} (body : A -> M F unit) (l : list A) :
  (forall a vs r vs', body a vs = Some (r, vs') ->
                      exists suf, vs' = vs ++ suf) ->
  forall vs r vs', for_each l body vs = Some (r, vs') ->
                   exists suf, vs' = vs ++ suf.
Proof.
  intros Hbody. induction l as [|a l IH]; intros vs r vs'; simpl.
  - unfold ret. intros E. injection E as _ <-. exists []. now rewrite app_nil_r.
  - unfold bind. destruct (body a vs) as [[u vs1]|] eqn:E1; [|discriminate].
    intros E2. destruct (Hbody _ _ _ _ E1) as [s1 ->].
    destruct (IH _ _ _ E2) as [s2 ->].
    exists (s1 ++ s2). now rewrite app_assoc.
Qed.

Lemma flat_map_shift {B : Type} (f : nat -> list B) (l : list nat) :
  flat_map f (map S l) = flat_map (fun k => f (S k)) l.
Proof.
  induction l as [|a l IH]; simpl; [reflexivity | now rewrite IH].
Qed.

(** Reading a list index by index gives the list back. *)
Lemma flat_map_seq_nth_error {A B : Type} (f : A -> B) (l : list A) :
  forall n, (n <= List.length l)%nat ->
  flat_map (fun k => match nth_error l k with
                     | Some p => [f p]
                     | None => []
                     end) (seq 0 n)
  = map f (firstn n l).
Proof.
  induction l as [|a l IH]; intros n Hn; simpl in Hn.
  - assert (n = 0%nat) as -> by lia. reflexivity.
  - destruct n as [|n]; [reflexivity|].
    simpl. rewrite <- seq_shift, flat_map_shift.
    simpl. f_equal. apply IH. lia.
Qed.

Lemma nth_error_combine {A B : Type} (l1 : list A) :
  forall (l2 : list B) k a b,
    nth_error l1 k = Some a -> nth_error l2 k = Some b ->
    nth_error (combine l1 l2) k = Some (a, b).
Proof.
  induction l1 as [|a1 l1 IH]; intros [|b2 l2] [|k] a b H1 H2;
    simpl in *; try discriminate.
  - now injection H1 as ->; injection H2 as ->.
  - now apply IH.
Qed.

End Loops.

Section GlyphRun.

Context {F : Type} `{FloatOps F}.
Variable g : Globals F.

Lemma map_over_flat_map {A B C : Type} (f : B -> C) (h : A -> list B)
      (l : list A) :
  flat_map (fun a => map f (h a)) l = map f (flat_map h l).
Proof.
  induction l as [|a l IH]; simpl; [reflexivity|].
  now rewrite IH, map_app.
Qed.

Lemma emitted_app adv sh sc (l1 l2 : list (MySegment F)) :
  emitted g adv sh sc (l1 ++ l2)
  = emitted g adv sh sc l1 ++ emitted g adv sh sc l2.
Proof. unfold emitted. now rewrite flat_map_app, map_app. Qed.

Lemma emitted_cons adv sh sc (s : MySegment F) (l : list (MySegment F)) :
  emitted g adv sh sc (s :: l)
  = map (transform g adv sh sc) (expand g s) ++ emitted g adv sh sc l.
Proof. unfold emitted. simpl. now rewrite map_app. Qed.

Lemma emitted_concat adv sh sc (cs : list (MyContour F)) :
  flat_map (emitted g adv sh sc) cs = emitted g adv sh sc (concat cs).
Proof.
  induction cs as [|c cs IH]; simpl; [reflexivity|].
  now rewrite IH, emitted_app.
Qed.

(** One [push_back] statement of the loop body. *)
Lemma push_vertex_emits s k adv sh sc xk yk vs :
  nth_error (x s) k = Some xk -> nth_error (y s) k = Some yk ->
  push_vertex g s k adv sh sc vs
  = Some (tt, vs ++ [transform g adv sh sc (xk, yk)]).
Proof.
  intros Hx Hy. unfold push_vertex, bind, index. now rewrite Hx, Hy.
Qed.

Lemma push_vertex_extends s k adv sh sc vs r vs' :
  push_vertex g s k adv sh sc vs = Some (r, vs') ->
  exists suf, vs' = vs ++ suf.
Proof.
  unfold push_vertex, bind, index, push_back.
  destruct (nth_error (x s) k); [|discriminate].
  destruct (nth_error (y s) k); [|discriminate].
  intros E. injection E as _ <-. eauto.
Qed.

Lemma insertPoint_extends s k adv sh sc vs r vs' :
  insertPoint g s k adv sh sc vs = Some (r, vs') ->
  exists suf, vs' = vs ++ suf.
Proof.
  unfold insertPoint.
  destruct (_ && _).
  - unfold bind.
    destruct (push_vertex g s k adv sh sc vs) as [[u v1]|] eqn:E1;
      [|discriminate].
    intros E2.
    apply push_vertex_extends in E1 as [s1 ->].
    apply push_vertex_extends in E2 as [s2 ->].
    exists (s1 ++ s2). now rewrite app_assoc.
  - destruct (_ && _); [|apply push_vertex_extends].
    unfold bind. destruct (Nat.eqb k 0).
    + destruct (push_vertex g s k adv sh sc vs) as [[u v1]|] eqn:E1;
        [|discriminate].
      intros E2.
      apply push_vertex_extends in E1 as [s1 ->].
      apply push_vertex_extends in E2 as [s2 ->].
      exists (s1 ++ s2). now rewrite app_assoc.
    + unfold ret. apply push_vertex_extends.
Qed.

(** The loop on [k] appends the expanded control points of the
    segment. *)
Lemma insertSegment_emits adv sh sc (s : MySegment F) :
  wf_segment s = true ->
  forall vs,
    insertSegment g adv sh sc s vs
    = Some (tt, vs ++ map (transform g adv sh sc) (expand g s)).
Proof.
  unfold wf_segment. rewrite andb_true_iff, !Z.ltb_lt. intros [Hx Hy] vs.
  destruct (degree s =? 1) eqn:Ed.
  - apply Z.eqb_eq in Ed.
    destruct s as [xs ys d]; simpl in *; subst d.
    destruct xs as [|x0 [|x1 xs]]; simpl in Hx; try lia.
    destruct ys as [|y0 [|y1 ys]]; simpl in Hy; try lia.
    unfold insertSegment, expand, control_points, insertPoint; simpl degree.
    change (Z.to_nat (1 + 1)) with 2%nat.
    destruct (bezierType g); simpl;
      unfold bind, push_vertex, index, push_back, bind, ret; simpl;
      now rewrite <- !app_assoc.
  - unfold insertSegment, expand. rewrite Ed.
    rewrite (for_each_emits _
               (fun k => match nth_error (combine (x s) (y s)) k with
                         | Some p => [transform g adv sh sc p]
                         | None => []
                         end)).
    + unfold control_points.
      rewrite flat_map_seq_nth_error; [reflexivity|].
      rewrite length_combine. lia.
    + intros k Hk vs0. apply in_seq in Hk.
      unfold insertPoint. rewrite Ed. simpl.
      destruct (nth_error (x s) k) as [xk|] eqn:Ex.
      2:{ apply nth_error_None in Ex. lia. }
      destruct (nth_error (y s) k) as [yk|] eqn:Ey.
      2:{ apply nth_error_None in Ey. lia. }
      rewrite (nth_error_combine _ _ _ _ _ Ex Ey).
      now apply push_vertex_emits.
Qed.

Lemma insertSegment_extends adv sh sc s vs r vs' :
  insertSegment g adv sh sc s vs = Some (r, vs') ->
  exists suf, vs' = vs ++ suf.
Proof.
  unfold insertSegment. apply for_each_extends.
  intros k. apply insertPoint_extends.
Qed.

(** The loop on [j]. *)
Lemma insertContour_emits adv sh sc (c : MyContour F) :
  wf_contour c = true ->
  forall vs,
    insertContour g adv sh sc c vs = Some (tt, vs ++ emitted g adv sh sc c).
Proof.
  unfold wf_contour. rewrite forallb_forall. intros Hwf vs.
  unfold insertContour, emitted.
  rewrite <- map_over_flat_map.
  apply for_each_emits.
  intros s Hs vs0. now apply insertSegment_emits, Hwf.
Qed.

Lemma insertContour_extends adv sh sc c vs r vs' :
  insertContour g adv sh sc c vs = Some (r, vs') ->
  exists suf, vs' = vs ++ suf.
Proof.
  unfold insertContour. apply for_each_extends.
  intros s. apply insertSegment_extends.
Qed.

(** The whole function on a glyph whose arrays are long enough. *)
Lemma insertGlyphCharacter_emits c adv sh sc :
  wf_glyph (ExtractGlyph g c) = true ->
  forall vs,
    insertGlyphCharacter g c adv sh sc vs
    = Some (advance (ExtractGlyph g c),
            vs ++ emitted g adv sh sc (segments (ExtractGlyph g c))).
Proof.
  unfold wf_glyph. rewrite forallb_forall. intros Hwf vs.
  unfold insertGlyphCharacter, bind, segments.
  rewrite (for_each_emits _ (emitted g adv sh sc)).
  - now rewrite emitted_concat.
  - intros ct Hct vs0. now apply insertContour_emits, Hwf.
Qed.

End GlyphRun.

Section Segments.

Context {F : Type} `{FloatOps F}.
Variable g : Globals F.

(** The points of the segment [s] sit between those of the segments
    before it and those of the segments after it. *)
Lemma insertContour_at_segment adv sh sc (pre post : MyContour F) s vs :
  wf_contour (pre ++ s :: post) = true ->
  insertContour g adv sh sc (pre ++ s :: post) vs
  = Some (tt, vs ++ emitted g adv sh sc pre
                 ++ map (transform g adv sh sc) (expand g s)
                 ++ emitted g adv sh sc post).
Proof.
  intros Hwf. rewrite insertContour_emits by assumption.
  now rewrite emitted_app, emitted_cons.
Qed.

Lemma insertGlyphCharacter_at_segment c adv sh sc cs1 pre s post cs2 vs :
  wf_glyph (ExtractGlyph g c) = true ->
  contours (ExtractGlyph g c) = cs1 ++ (pre ++ s :: post) :: cs2 ->
  insertGlyphCharacter g c adv sh sc vs
  = Some (advance (ExtractGlyph g c),
          vs ++ emitted g adv sh sc (concat cs1 ++ pre)
             ++ map (transform g adv sh sc) (expand g s)
             ++ emitted g adv sh sc (post ++ concat cs2)).
Proof.
  intros Hwf Hcs. rewrite insertGlyphCharacter_emits by assumption.
  unfold segments. rewrite Hcs, concat_app. simpl.
  rewrite <- !app_assoc, (app_assoc (concat cs1) pre).
  simpl. now rewrite emitted_app, emitted_cons.
Qed.

Lemma expand_line_cubic (s : MySegment F) p0 p1 :
  bezierType g = CUBIC -> degree s = 1 -> control_points s = [p0; p1] ->
  expand g s = [p0; p0; p1; p1].
Proof.
  intros Hb Hd Hp. unfold expand. now rewrite Hd, Hb, Hp.
Qed.

Lemma expand_line_quadratic (s : MySegment F) p0 p1 :
  bezierType g = QUADRATIC -> degree s = 1 -> control_points s = [p0; p1] ->
  expand g s = [p0; p0; p1].
Proof.
  intros Hb Hd Hp. unfold expand. now rewrite Hd, Hb, Hp.
Qed.

(** The number of control points of a segment. *)
Lemma length_control_points (s : MySegment F) :
  wf_segment s = true -> 0 <= degree s ->
  Z.of_nat (List.length (control_points s)) = degree s + 1.
Proof.
  unfold wf_segment, control_points.
  rewrite andb_true_iff, !Z.ltb_lt. intros [Hx Hy] Hd.
  rewrite length_firstn, length_combine. lia.
Qed.

(** A line or a segment of the session's degree gives one whole patch. *)
Lemma length_expand (s : MySegment F) :
  wf_segment s = true ->
  degree s = 1 \/ degree s = targetDegree (bezierType g) ->
  Z.of_nat (List.length (expand g s)) = targetDegree (bezierType g) + 1.
Proof.
  intros Hwf Hd. unfold expand.
  destruct (degree s =? 1) eqn:E.
  - apply Z.eqb_eq in E.
    pose proof (length_control_points s Hwf ltac:(lia)) as Hl.
    rewrite E in Hl.
    destruct (control_points s) as [|p0 [|p1 [|p2 ps]]];
      simpl in Hl; try lia.
    now destruct (bezierType g).
  - apply Z.eqb_neq in E.
    destruct Hd as [Hd|Hd]; [contradiction|].
    rewrite length_control_points by (try assumption;
      rewrite Hd; destruct (bezierType g); simpl; lia).
    now rewrite Hd.
Qed.

Lemma length_flat_map_expand (ss : list (MySegment F)) :
  Forall (fun s => wf_segment s = true) ss ->
  Forall (fun s : MySegment F =>
            degree s = 1 \/ degree s = targetDegree (bezierType g)) ss ->
  Z.of_nat (List.length (flat_map (expand g) ss))
  = Z.of_nat (List.length ss) * (targetDegree (bezierType g) + 1).
Proof.
  induction ss as [|s ss IH]; intros Hwf Hd; [reflexivity|].
  inversion Hwf as [|? ? Hwf1 Hwf2]; inversion Hd as [|? ? Hd1 Hd2]; subst.
  simpl flat_map. rewrite length_app, Nat2Z.inj_add.
  rewrite (length_expand s Hwf1 Hd1), (IH Hwf2 Hd2).
  simpl List.length. lia.
Qed.

Lemma wf_glyph_segments (gl : MyGlyph F) :
  wf_glyph gl = true -> Forall (fun s => wf_segment s = true) (segments gl).
Proof.
  unfold wf_glyph, wf_contour, segments. rewrite forallb_forall.
  intros Hwf. apply Forall_forall. intros s Hs.
  apply in_concat in Hs as [ct [Hct Hs]].
  specialize (Hwf ct Hct). rewrite forallb_forall in Hwf. now apply Hwf.
Qed.

(** A segment that is not a line is emitted as it is. *)
Lemma expand_native (ss : list (MySegment F)) :
  Forall (fun s : MySegment F => degree s = targetDegree (bezierType g)) ss ->
  flat_map (expand g) ss = flat_map control_points ss.
Proof.
  induction 1 as [|s ss Hs _ IH]; simpl; [reflexivity|].
  rewrite IH. f_equal. unfold expand.
  replace (degree s =? 1) with false; [reflexivity|].
  symmetry. apply Z.eqb_neq. rewrite Hs. now destruct (bezierType g).
Qed.

End Segments.

Section GlyphClaims.

Context {F : Type} `{FloatOps F}.
Variable g : Globals F.

(** C2.  In a cubic session ([bezierType == CUBIC]) every line segment
    (degree 1) with end points [p0] and [p1], wherever it stands in the
    glyph, makes [insertGlyphCharacter] append exactly the four points
    [p0; p0; p1; p1], each passed through the coordinate transform,
    between the points of the segments before it and those of the
    segments after it. *)
Theorem cubic_line_appends_four
        c adv sh sc cs1 pre (s : MySegment F) post cs2 p0 p1 vs :
  bezierType g = CUBIC ->
  wf_glyph (ExtractGlyph g c) = true ->
  contours (ExtractGlyph g c) = cs1 ++ (pre ++ s :: post) :: cs2 ->
  degree s = 1 ->
  control_points s = [p0; p1] ->
  insertGlyphCharacter g c adv sh sc vs
  = Some (advance (ExtractGlyph g c),
          vs ++ emitted g adv sh sc (concat cs1 ++ pre)
             ++ map (transform g adv sh sc) [p0; p0; p1; p1]
             ++ emitted g adv sh sc (post ++ concat cs2)).
Proof.
  intros Hb Hwf Hcs Hd Hp.
  rewrite (insertGlyphCharacter_at_segment g c adv sh sc _ _ _ _ _ vs Hwf Hcs).
  now rewrite (expand_line_cubic g s p0 p1 Hb Hd Hp).
Qed.

(** C9.  In a quadratic session ([bezierType == QUADRATIC]) every line
    segment of every contour, first of its contour or not, makes
    [insertGlyphCharacter] append exactly three points, the transformed
    [p0; p0; p1]: the start point is doubled for every line, whatever
    comes before it. *)
Theorem quadratic_line_appends_three
        c adv sh sc cs1 pre (s : MySegment F) post cs2 p0 p1 vs :
  bezierType g = QUADRATIC ->
  wf_glyph (ExtractGlyph g c) = true ->
  contours (ExtractGlyph g c) = cs1 ++ (pre ++ s :: post) :: cs2 ->
  degree s = 1 ->
  control_points s = [p0; p1] ->
  insertGlyphCharacter g c adv sh sc vs
  = Some (advance (ExtractGlyph g c),
          vs ++ emitted g adv sh sc (concat cs1 ++ pre)
             ++ map (transform g adv sh sc) [p0; p0; p1]
             ++ emitted g adv sh sc (post ++ concat cs2)).
Proof.
  intros Hb Hwf Hcs Hd Hp.
  rewrite (insertGlyphCharacter_at_segment g c adv sh sc _ _ _ _ _ vs Hwf Hcs).
  now rewrite (expand_line_quadratic g s p0 p1 Hb Hd Hp).
Qed.

(** C1, as amended.  In a quadratic session, for every contour: a line
    segment that is the first segment of the contour makes the loop on
    the contour append the three points [p0; p0; p1] (transformed), and
    every later line segment of that contour, with end points [q0] and
    [q1], makes it append the three points [q0; q0; q1] as well: the
    doubling is by the index of the point in its segment ([k == 0]), not
    by the place of the segment in the contour. *)
Theorem quadratic_contour_lines adv sh sc (c : MyContour F) vs :
  bezierType g = QUADRATIC ->
  wf_contour c = true ->
  (forall s rest p0 p1,
      c = s :: rest -> degree s = 1 -> control_points s = [p0; p1] ->
      insertContour g adv sh sc c vs
      = Some (tt, vs ++ map (transform g adv sh sc) [p0; p0; p1]
                     ++ emitted g adv sh sc rest))
  /\
  (forall pre s post q0 q1,
      c = pre ++ s :: post -> pre <> [] ->
      degree s = 1 -> control_points s = [q0; q1] ->
      insertContour g adv sh sc c vs
      = Some (tt, vs ++ emitted g adv sh sc pre
                     ++ map (transform g adv sh sc) [q0; q0; q1]
                     ++ emitted g adv sh sc post)).
Proof.
  intros Hb Hwf. split.
  - intros s rest p0 p1 -> Hd Hp.
    rewrite (insertContour_at_segment g adv sh sc [] rest s vs Hwf).
    now rewrite (expand_line_quadratic g s p0 p1 Hb Hd Hp).
  - intros pre s post q0 q1 -> _ Hd Hp.
    rewrite (insertContour_at_segment g adv sh sc pre post s vs Hwf).
    now rewrite (expand_line_quadratic g s q0 q1 Hb Hd Hp).
Qed.

(** C6.  For every glyph all of whose segments have degree 1 or the
    degree of the session, the number of points [insertGlyphCharacter]
    appends is the number of segments times [targetDegree + 1], so a
    multiple of [targetDegree + 1]: no partial patch is emitted. *)
Theorem whole_patches_only c adv sh sc vs :
  wf_glyph (ExtractGlyph g c) = true ->
  Forall (fun s : MySegment F =>
            degree s = 1 \/ degree s = targetDegree (bezierType g))
         (segments (ExtractGlyph g c)) ->
  exists out,
    insertGlyphCharacter g c adv sh sc vs
    = Some (advance (ExtractGlyph g c), vs ++ out)
    /\ Z.of_nat (List.length out)
       = Z.of_nat (List.length (segments (ExtractGlyph g c)))
         * (targetDegree (bezierType g) + 1)
    /\ (targetDegree (bezierType g) + 1 | Z.of_nat (List.length out)).
Proof.
  intros Hwf Hd.
  exists (emitted g adv sh sc (segments (ExtractGlyph g c))).
  assert (Z.of_nat (List.length
                      (emitted g adv sh sc (segments (ExtractGlyph g c))))
          = Z.of_nat (List.length (segments (ExtractGlyph g c)))
            * (targetDegree (bezierType g) + 1)) as Hlen.
  { unfold emitted. rewrite length_map.
    apply length_flat_map_expand; [now apply wf_glyph_segments | exact Hd]. }
  split; [now apply insertGlyphCharacter_emits|].
  split; [exact Hlen|].
  rewrite Hlen. apply Z.divide_factor_r.
Qed.

(** C8.  [insertGlyphCharacter] only appends to [vertices]: whenever a
    call returns, the buffer it leaves starts with the buffer it found,
    unchanged and in the same order; and on a glyph whose arrays hold
    the points its degrees announce the call does return. *)
Theorem insertGlyphCharacter_only_appends c adv sh sc vs :
  (forall r vs',
      insertGlyphCharacter g c adv sh sc vs = Some (r, vs') ->
      exists suf, vs' = vs ++ suf)
  /\
  (wf_glyph (ExtractGlyph g c) = true ->
   exists suf,
     insertGlyphCharacter g c adv sh sc vs
     = Some (advance (ExtractGlyph g c), vs ++ suf)).
Proof.
  split.
  - intros r vs'. unfold insertGlyphCharacter, bind, ret.
    destruct (for_each _ _ vs) as [[u v1]|] eqn:E; [|discriminate].
    intros E'. injection E' as _ <-.
    revert E. apply for_each_extends.
    intros ct. apply insertContour_extends.
  - intros Hwf. eexists. now apply insertGlyphCharacter_emits.
Qed.

End GlyphClaims.

Section NativeDegree.

Context {F : Type} `{FloatOps F}.
Variable g : Globals F.

Lemma emitted_with_fontYShiftBy v adv sh sc (ss : list (MySegment F)) :
  map fst (emitted (with_fontYShiftBy g v) adv sh sc ss)
  = map fst (emitted g adv sh sc ss).
Proof.
  unfold emitted. rewrite !map_map. reflexivity.
Qed.

Lemma emitted_snd adv sh adv' sh' sc (ss : list (MySegment F)) :
  map snd (emitted g adv' sh' sc ss) = map snd (emitted g adv sh sc ss).
Proof.
  unfold emitted. rewrite !map_map. reflexivity.
Qed.

(** C3.  For every glyph all of whose segments already have the degree
    of the session, [insertGlyphCharacter] appends the control points of
    the segments, contour after contour and segment after segment, each
    point [p] as [((p.x + advance + shift) * scale,
    (p.y + fontYShiftBy) * scale)]; their number is the number of
    segments times [targetDegree + 1]; the advance offset and the
    horizontal shift do not reach the y coordinates, and the vertical
    shift does not reach the x coordinates. *)
Theorem native_degree_glyph c adv sh sc vs :
  wf_glyph (ExtractGlyph g c) = true ->
  Forall (fun s : MySegment F => degree s = targetDegree (bezierType g))
         (segments (ExtractGlyph g c)) ->
  let pts := flat_map control_points (segments (ExtractGlyph g c)) in
  let out :=
    map (fun p : F * F =>
           (fmul (fadd (fadd (fst p) adv) sh) sc,
            fmul (fadd (snd p) (fontYShiftBy g)) sc)) pts in
  insertGlyphCharacter g c adv sh sc vs
  = Some (advance (ExtractGlyph g c), vs ++ out)
  /\ Z.of_nat (List.length out)
     = Z.of_nat (List.length (segments (ExtractGlyph g c)))
       * (targetDegree (bezierType g) + 1)
  /\ (forall adv' sh',
         exists out',
           insertGlyphCharacter g c adv' sh' sc vs
           = Some (advance (ExtractGlyph g c), vs ++ out')
           /\ map snd out' = map snd out)
  /\ (forall v',
         exists out',
           insertGlyphCharacter (with_fontYShiftBy g v') c adv sh sc vs
           = Some (advance (ExtractGlyph g c), vs ++ out')
           /\ map fst out' = map fst out).
Proof.
  intros Hwf Hd pts out.
  assert (out = emitted g adv sh sc (segments (ExtractGlyph g c))) as Hout.
  { unfold out, pts, emitted. now rewrite (expand_native g _ Hd). }
  rewrite Hout. repeat split.
  - now apply insertGlyphCharacter_emits.
  - unfold emitted. rewrite length_map.
    apply length_flat_map_expand; [now apply wf_glyph_segments|].
    eapply Forall_impl; [|exact Hd]. intros s Hs. now right.
  - intros adv' sh'.
    exists (emitted g adv' sh' sc (segments (ExtractGlyph g c))).
    split; [now apply insertGlyphCharacter_emits | apply emitted_snd].
  - intros v'.
    exists (emitted (with_fontYShiftBy g v') adv sh sc
                    (segments (ExtractGlyph g c))).
    split; [|apply emitted_with_fontYShiftBy].
    now apply (insertGlyphCharacter_emits (with_fontYShiftBy g v')).
Qed.

End NativeDegree.

Section Buffer.

(** [strcpy] writes inside the destination. *)
Lemma strcpy_length (src : list ascii) :
  forall dst, List.length (strcpy dst src) = List.length dst.
Proof.
  induction src as [|c src IH]; intros [|d dst]; simpl; try reflexivity.
  destruct (Ascii.eqb c NUL); [reflexivity | now rewrite IH].
Qed.

(** A text without NUL arrives whole, with its terminator. *)
Lemma strcpy_c_string (l : list ascii) :
  forall dst,
    (forall c, In c l -> c <> NUL) ->
    List.length dst = (List.length l + 1)%nat ->
    strcpy dst (l ++ [NUL]) = l ++ [NUL].
Proof.
  induction l as [|c l IH]; intros [|d dst] Hnul Hlen;
    simpl in Hlen; try lia.
  - destruct dst; [reflexivity | simpl in Hlen; lia].
  - simpl.
    replace (Ascii.eqb c NUL) with false
      by (symmetry; apply Ascii.eqb_neq, Hnul; now left).
    f_equal. apply IH; [|lia].
    intros c' Hc'. apply Hnul. now right.
Qed.

Lemma length_list_ascii_of_string (text : string) :
  List.length (list_ascii_of_string text) = String.length text.
Proof.
  induction text as [|c text IH]; simpl; [reflexivity | now rewrite IH].
Qed.

Lemma textCharArr_length uninit text :
  List.length (textCharArr uninit text) = (String.length text + 1)%nat.
Proof.
  unfold textCharArr. now rewrite strcpy_length, length_map, length_seq.
Qed.

Lemma textCharArr_c_str uninit text :
  (forall c, In c (list_ascii_of_string text) -> c <> NUL) ->
  textCharArr uninit text = c_str text.
Proof.
  intros Hnul. unfold textCharArr, c_str.
  apply strcpy_c_string; [exact Hnul|].
  now rewrite length_map, length_seq, length_list_ascii_of_string.
Qed.

End Buffer.

Section StringRun.

Context {F : Type} `{FloatOps F}.

(** A loop on the indices of a stretch of an array is a loop on the
    elements of the stretch. *)
Lemma for_acc_index {A L : Type} (f : A -> L -> M F L) (post : list A) :
  forall (l pre : list A) (acc : L) (vs : list (vec2 F)),
    for_acc (seq (List.length pre) (List.length l)) acc
            (fun i acc => bind (index (pre ++ l ++ post) i)
                               (fun ci => f ci acc)) vs
    = for_acc l acc f vs.
Proof.
  induction l as [|a l IH]; intros pre acc vs; [reflexivity|].
  simpl. unfold bind at 1 2. unfold index at 1.
  rewrite nth_error_app2, Nat.sub_diag by lia. simpl.
  unfold bind at 2.
  destruct (f a acc vs) as [[acc' vs']|]; [|reflexivity].
  specialize (IH (pre ++ [a]) acc' vs').
  rewrite length_app, Nat.add_1_r, <- app_assoc in IH. exact IH.
Qed.

Variable g : Globals F.

(** On a text without NUL the loop of [insertString] visits the
    characters of the text. *)
Lemma insertString_advanceBy_chars uninit (c0 : ascii) (rest : string) vs :
  (forall c, In c (list_ascii_of_string (String c0 rest)) -> c <> NUL) ->
  insertString_advanceBy g uninit (String c0 rest) vs
  = spec_emitString g c0 (list_ascii_of_string rest) vs.
Proof.
  intros Hnul. unfold insertString_advanceBy, spec_emitString, spec_emitRest.
  rewrite (textCharArr_c_str uninit _ Hnul).
  unfold c_str. simpl list_ascii_of_string. simpl String.length.
  rewrite Nat.sub_succ, Nat.sub_0_r, <- length_list_ascii_of_string.
  unfold bind at 1. unfold index at 1. simpl nth_error.
  unfold bind.
  destruct (insertGlyphCharacter g c0 fzero (fontShiftBy g) (fontScaleBy g) vs)
    as [[a0 vs0]|]; [|reflexivity].
  apply (for_acc_index
           (fun c acc vs1 =>
              match insertGlyphCharacter g c acc (fontShiftBy g)
                                         (fontScaleBy g) vs1 with
              | Some (a, vs2) => ret (fadd acc a) vs2
              | None => None
              end) [NUL] (list_ascii_of_string rest) [c0]).
Qed.

(** The characters after the first, on glyphs with long enough
    arrays. *)
Lemma spec_emitRest_emits (cs : list ascii) :
  (forall c, In c cs -> wf_glyph (ExtractGlyph g c) = true) ->
  forall acc vs,
    spec_emitRest g cs acc vs
    = Some (accumulate acc (map (fun c => advance (ExtractGlyph g c)) cs),
            vs ++ string_emitted g acc cs).
Proof.
  unfold spec_emitRest, accumulate.
  induction cs as [|c cs IH]; intros Hwf acc vs; simpl.
  - unfold ret. now rewrite app_nil_r.
  - unfold bind at 1 2.
    rewrite insertGlyphCharacter_emits by (apply Hwf; now left).
    unfold ret at 1.
    rewrite IH by (intros c' Hc'; apply Hwf; now right).
    now rewrite <- app_assoc.
Qed.

Lemma spec_emitString_emits (c0 : ascii) (cs : list ascii) :
  (forall c, In c (c0 :: cs) -> wf_glyph (ExtractGlyph g c) = true) ->
  forall vs,
    spec_emitString g c0 cs vs
    = Some (accumulate (advance (ExtractGlyph g c0))
                       (map (fun c => advance (ExtractGlyph g c)) cs),
            vs ++ emitted g fzero (fontShiftBy g) (fontScaleBy g)
                          (segments (ExtractGlyph g c0))
               ++ string_emitted g (advance (ExtractGlyph g c0)) cs).
Proof.
  intros Hwf vs. unfold spec_emitString, bind.
  rewrite insertGlyphCharacter_emits by (apply Hwf; now left).
  rewrite spec_emitRest_emits by (intros c Hc; apply Hwf; now right).
  now rewrite <- app_assoc.
Qed.

(** The empty text: the buffer is the terminator alone. *)
Lemma textCharArr_empty uninit : textCharArr uninit EmptyString = [NUL].
Proof. reflexivity. Qed.

End StringRun.

Section StringClaims.

Context {F : Type} `{FloatOps F}.
Variable g : Globals F.

(** C4, as amended.  [insertGlyphCharacter] returns the advance of the
    glyph it processed, whatever its offset, shift and scale arguments.
    On a text with a first character and no NUL in it, [insertString]
    calls [insertGlyphCharacter] with offset 0 for the first character
    and opens its accumulator [advanceBy] with the advance returned; for
    each later character the offset is the accumulator, the sum of the
    advances returned so far, to which the new advance is then added;
    every call gets the same [fontShiftBy] and [fontScaleBy].  When it
    ends [advanceBy] holds the total, and [insertString] itself returns
    no value. *)
Theorem insertString_accumulation uninit (c0 : ascii) (rest : string) vs :
  (forall c, In c (list_ascii_of_string (String c0 rest)) -> c <> NUL) ->
  (forall c, In c (list_ascii_of_string (String c0 rest)) ->
             wf_glyph (ExtractGlyph g c) = true) ->
  let adv := fun c : ascii => advance (ExtractGlyph g c) in
  let total := accumulate (adv c0) (map adv (list_ascii_of_string rest)) in
  let out :=
    emitted g fzero (fontShiftBy g) (fontScaleBy g)
            (segments (ExtractGlyph g c0))
    ++ string_emitted g (adv c0) (list_ascii_of_string rest) in
  (forall c a sh sc vs0 r vs1,
      insertGlyphCharacter g c a sh sc vs0 = Some (r, vs1) -> r = adv c)
  /\ insertString_advanceBy g uninit (String c0 rest) vs
     = spec_emitString g c0 (list_ascii_of_string rest) vs
  /\ insertString_advanceBy g uninit (String c0 rest) vs
     = Some (total, vs ++ out)
  /\ insertString g uninit (String c0 rest) vs = Some (tt, vs ++ out).
Proof.
  intros Hnul Hwf adv total out.
  assert (insertString_advanceBy g uninit (String c0 rest) vs
          = Some (total, vs ++ out)) as Hrun.
  { rewrite insertString_advanceBy_chars by exact Hnul.
    now rewrite spec_emitString_emits. }
  split; [|split; [|split]].
  - intros c a sh sc vs0 r vs1. unfold insertGlyphCharacter, bind, ret.
    destruct (for_each _ _ vs0) as [[u v]|]; [|discriminate].
    intros E. now injection E as <- _.
  - now apply insertString_advanceBy_chars.
  - exact Hrun.
  - unfold insertString, bind. now rewrite Hrun.
Qed.

(** C7.  For every font and every scale, the advance [insertString]
    accumulates over a text of two characters ("AB") is the sum of its
    glyphs' own advances: the run on the first character alone
    accumulates the advance of its glyph, the run on the second alone the
    advance of its glyph, and the run on the two accumulates the first
    plus the second.  The two-character run puts the second glyph at the
    advance of the first. *)
Theorem advance_of_two_characters uninit (cA cB : ascii) vs :
  cA <> NUL -> cB <> NUL ->
  wf_glyph (ExtractGlyph g cA) = true ->
  wf_glyph (ExtractGlyph g cB) = true ->
  let a := advance (ExtractGlyph g cA) in
  let b := advance (ExtractGlyph g cB) in
  let ptsA :=
    emitted g fzero (fontShiftBy g) (fontScaleBy g)
            (segments (ExtractGlyph g cA)) in
  insertString_advanceBy g uninit (String cA EmptyString) vs
  = Some (a, vs ++ ptsA)
  /\ insertString_advanceBy g uninit (String cB EmptyString) vs
     = Some (b, vs ++ emitted g fzero (fontShiftBy g) (fontScaleBy g)
                              (segments (ExtractGlyph g cB)))
  /\ insertString_advanceBy g uninit (String cA (String cB EmptyString)) vs
     = Some (fadd a b,
             vs ++ ptsA
                ++ emitted g a (fontShiftBy g) (fontScaleBy g)
                           (segments (ExtractGlyph g cB))).
Proof.
  intros HA HB HwfA HwfB a b ptsA. repeat split.
  - rewrite insertString_advanceBy_chars by (intros c [<-|[]]; exact HA).
    rewrite spec_emitString_emits by (intros c [<-|[]]; exact HwfA).
    simpl string_emitted. now rewrite app_nil_r.
  - rewrite insertString_advanceBy_chars by (intros c [<-|[]]; exact HB).
    rewrite spec_emitString_emits by (intros c [<-|[]]; exact HwfB).
    simpl string_emitted. now rewrite app_nil_r.
  - rewrite insertString_advanceBy_chars
      by (intros c [<-|[<-|[]]]; assumption).
    rewrite spec_emitString_emits by (intros c [<-|[<-|[]]]; assumption).
    simpl string_emitted. now rewrite app_nil_r.
Qed.

End StringClaims.

(* ------------------------------------------------------------------ *)
(** * Runs on the small font *)

(** C1 fails on the code.  "A" is one contour of two lines,
    (0,0)-(2,4) and (2,4)-(4,0).  In a quadratic session the code appends
    six points, three for each line; the rule of the claim (three for the
    first line, two for the second) would give five. *)
Lemma quadratic_second_line_counterexample :
  insertGlyphCharacter demo_quadratic "A" 0 0 1 []
  = Some (5, [(0, 1); (0, 1); (2, 5); (2, 5); (2, 5); (4, 1)])
  /\ map (transform demo_quadratic 0 0 1)
         (flat_map (spec_quadratic_contour true)
                   (contours (ExtractGlyph demo_quadratic "A")))
     = [(0, 1); (0, 1); (2, 5); (2, 5); (4, 1)]
  /\ insertGlyphCharacter demo_quadratic "A" 0 0 1 []
     <> Some (5, map (transform demo_quadratic 0 0 1)
                     (flat_map (spec_quadratic_contour true)
                               (contours (ExtractGlyph demo_quadratic "A")))).
Proof.
  split; [reflexivity|]. split; [reflexivity|].
  intros E. vm_compute in E. congruence.
Qed.

Lemma quadratic_contour_lines_witness :
  (bezierType demo_quadratic = QUADRATIC
   /\ wf_contour [line 0 0 2 4; line 2 4 4 0] = true)
  /\ insertContour demo_quadratic 10 (-3) 2 [line 0 0 2 4; line 2 4 4 0] [(9, 9)]
     = Some (tt, [(9, 9); (14, 2); (14, 2); (18, 10)]
                   ++ emitted demo_quadratic 10 (-3) 2 [line 2 4 4 0])
  /\ insertContour demo_quadratic 10 (-3) 2 [line 0 0 2 4; line 2 4 4 0] [(9, 9)]
     = Some (tt, [(9, 9); (14, 2); (14, 2); (18, 10);
                  (18, 10); (18, 10); (22, 2)]).
Proof.
  split; [split; reflexivity|].
  split.
  - exact (proj1 (quadratic_contour_lines demo_quadratic 10 (-3) 2
                    [line 0 0 2 4; line 2 4 4 0] [(9, 9)] eq_refl eq_refl)
                 (line 0 0 2 4) [line 2 4 4 0] (0, 0) (2, 4)
                 eq_refl eq_refl eq_refl).
  - exact (proj2 (quadratic_contour_lines demo_quadratic 10 (-3) 2
                    [line 0 0 2 4; line 2 4 4 0] [(9, 9)] eq_refl eq_refl)
                 [line 0 0 2 4] (line 2 4 4 0) [] (2, 4) (4, 0)
                 eq_refl ltac:(discriminate) eq_refl eq_refl).
Defined.

Lemma cubic_line_appends_four_witness :
  (bezierType demo_cubic = CUBIC
   /\ wf_glyph (ExtractGlyph demo_cubic "A") = true
   /\ contours (ExtractGlyph demo_cubic "A")
      = [] ++ ([line 0 0 2 4] ++ line 2 4 4 0 :: []) :: []
   /\ degree (line 2 4 4 0) = 1
   /\ control_points (line 2 4 4 0) = [(2, 4); (4, 0)])
  /\ insertGlyphCharacter demo_cubic "A" 10 (-3) 2 [(9, 9)]
     = Some (5, [(9, 9)] ++ [(14, 2); (14, 2); (18, 10); (18, 10)]
                  ++ [(18, 10); (18, 10); (22, 2); (22, 2)] ++ []).
Proof.
  split; [repeat split|].
  exact (cubic_line_appends_four demo_cubic "A" 10 (-3) 2
           [] [line 0 0 2 4] (line 2 4 4 0) [] [] (2, 4) (4, 0) [(9, 9)]
           eq_refl eq_refl eq_refl eq_refl eq_refl).
Defined.

Lemma quadratic_line_appends_three_witness :
  (bezierType demo_quadratic = QUADRATIC
   /\ wf_glyph (ExtractGlyph demo_quadratic "A") = true
   /\ contours (ExtractGlyph demo_quadratic "A")
      = [] ++ ([line 0 0 2 4] ++ line 2 4 4 0 :: []) :: []
   /\ degree (line 2 4 4 0) = 1
   /\ control_points (line 2 4 4 0) = [(2, 4); (4, 0)])
  /\ insertGlyphCharacter demo_quadratic "A" 10 (-3) 2 [(9, 9)]
     = Some (5, [(9, 9)] ++ [(14, 2); (14, 2); (18, 10)]
                  ++ [(18, 10); (18, 10); (22, 2)] ++ []).
Proof.
  split; [repeat split|].
  exact (quadratic_line_appends_three demo_quadratic "A" 10 (-3) 2
           [] [line 0 0 2 4] (line 2 4 4 0) [] [] (2, 4) (4, 0) [(9, 9)]
           eq_refl eq_refl eq_refl eq_refl eq_refl).
Defined.

Lemma native_degree_glyph_witness :
  (wf_glyph (ExtractGlyph demo_quadratic "Q") = true
   /\ Forall (fun s : MySegment Z =>
                degree s = targetDegree (bezierType demo_quadratic))
             (segments (ExtractGlyph demo_quadratic "Q")))
  /\ insertGlyphCharacter demo_quadratic "Q" 10 (-3) 2 [(9, 9)]
     = Some (6, [(9, 9); (14, 2); (18, 10); (22, 2); (22, 2); (18, -6);
                 (14, 2); (16, 2); (18, 4); (20, 2)])
  /\ Z.of_nat 9 = Z.of_nat 3 * (2 + 1).
Proof.
  assert (Forall (fun s : MySegment Z =>
                    degree s = targetDegree (bezierType demo_quadratic))
                 (segments (ExtractGlyph demo_quadratic "Q"))) as Hd
      by (repeat constructor).
  split; [split; [reflexivity | exact Hd]|].
  pose proof (native_degree_glyph demo_quadratic "Q" 10 (-3) 2 [(9, 9)]
                eq_refl Hd) as (Hrun & Hlen & _).
  split; [exact Hrun | exact Hlen].
Defined.

Lemma whole_patches_only_witness :
  (wf_glyph (ExtractGlyph demo_cubic "A") = true
   /\ Forall (fun s : MySegment Z =>
                degree s = 1 \/ degree s = targetDegree (bezierType demo_cubic))
             (segments (ExtractGlyph demo_cubic "A")))
  /\ exists out,
      insertGlyphCharacter demo_cubic "A" 10 (-3) 2 [(9, 9)]
      = Some (5, [(9, 9)] ++ out)
      /\ Z.of_nat (List.length out) = 2 * (3 + 1)
      /\ (3 + 1 | Z.of_nat (List.length out)).
Proof.
  assert (Forall (fun s : MySegment Z =>
                    degree s = 1
                    \/ degree s = targetDegree (bezierType demo_cubic))
                 (segments (ExtractGlyph demo_cubic "A"))) as Hd
      by (repeat constructor; now left).
  split; [split; [reflexivity | exact Hd]|].
  exact (whole_patches_only demo_cubic "A" 10 (-3) 2 [(9, 9)] eq_refl Hd).
Defined.

Lemma insertGlyphCharacter_only_appends_witness :
  wf_glyph (ExtractGlyph demo_quadratic "B") = true
  /\ (exists suf,
         insertGlyphCharacter demo_quadratic "B" 10 (-3) 2 [(9, 9)]
         = Some (3, [(9, 9)] ++ suf))
  /\ (exists suf,
         [(9, 9); (14, 2); (14, 2); (14, 10); (14, 10); (20, 6); (14, 2)]
         = [(9, 9)] ++ suf).
Proof.
  split; [reflexivity|]. split.
  - exact (proj2 (insertGlyphCharacter_only_appends demo_quadratic "B"
                    10 (-3) 2 [(9, 9)]) eq_refl).
  - exact (proj1 (insertGlyphCharacter_only_appends demo_quadratic "B"
                    10 (-3) 2 [(9, 9)]) 3 _ eq_refl).
Defined.

(** C4 fails on the code in one point: [insertString] is a [void]
    function.  On the text "A" it returns the same (empty) value with the
    font whose "A" advances by 5 and with the font whose "A" advances by
    7, so nothing read off its result is the accumulated advance. *)
Lemma insertString_returns_no_advance :
  ~ (exists read : unit -> Z,
        forall (g : Globals Z) r vs1 a vs2,
          insertString g demo_uninit "A" [] = Some (r, vs1) ->
          insertString_advanceBy g demo_uninit "A" [] = Some (a, vs2) ->
          read r = a).
Proof.
  intros [read Hread].
  pose proof (Hread demo_quadratic tt _ 5 _ eq_refl eq_refl) as H5.
  pose proof (Hread wide_quadratic tt _ 7 _ eq_refl eq_refl) as H7.
  rewrite H5 in H7. discriminate.
Qed.

Lemma insertString_accumulation_witness :
  ((forall c, In c (list_ascii_of_string "ABQ") -> c <> NUL)
   /\ (forall c, In c (list_ascii_of_string "ABQ") ->
                 wf_glyph (ExtractGlyph demo_quadratic c) = true))
  /\ insertString_advanceBy demo_quadratic demo_uninit "ABQ" [(9, 9)]
     = Some (5 + 3 + 6,
             [(9, 9)]
               ++ emitted demo_quadratic 0 (-3) 2 (segments glyph_A)
               ++ emitted demo_quadratic 5 (-3) 2 (segments glyph_B)
               ++ emitted demo_quadratic (5 + 3) (-3) 2 (segments glyph_Q))
  /\ insertString demo_quadratic demo_uninit "ABQ" [(9, 9)]
     = Some (tt,
             [(9, 9); (-6, 2); (-6, 2); (-2, 10); (-2, 10); (-2, 10); (2, 2);
              (4, 2); (4, 2); (4, 10); (4, 10); (10, 6); (4, 2);
              (10, 2); (14, 10); (18, 2); (18, 2); (14, -6); (10, 2);
              (12, 2); (14, 4); (16, 2)]).
Proof.
  assert (forall c, In c (list_ascii_of_string "ABQ") -> c <> NUL) as Hnul
      by (intros c [<-|[<-|[<-|[]]]]; discriminate).
  assert (forall c, In c (list_ascii_of_string "ABQ") ->
                    wf_glyph (ExtractGlyph demo_quadratic c) = true) as Hwf
      by (intros c [<-|[<-|[<-|[]]]]; reflexivity).
  split; [split; assumption|].
  pose proof (insertString_accumulation demo_quadratic demo_uninit
                "A" "BQ" [(9, 9)] Hnul Hwf) as (_ & _ & Hacc & Hrun).
  split; [exact Hacc | exact Hrun].
Defined.

Lemma advance_of_two_characters_witness :
  ("A"%char <> NUL /\ "B"%char <> NUL
   /\ wf_glyph (ExtractGlyph demo_quadratic "A") = true
   /\ wf_glyph (ExtractGlyph demo_quadratic "B") = true)
  /\ insertString_advanceBy demo_quadratic demo_uninit "A" []
     = Some (5, [] ++ emitted demo_quadratic 0 (-3) 2 (segments glyph_A))
  /\ insertString_advanceBy demo_quadratic demo_uninit "B" []
     = Some (3, [] ++ emitted demo_quadratic 0 (-3) 2 (segments glyph_B))
  /\ insertString_advanceBy demo_quadratic demo_uninit "AB" []
     = Some (5 + 3,
             [] ++ emitted demo_quadratic 0 (-3) 2 (segments glyph_A)
                ++ emitted demo_quadratic 5 (-3) 2 (segments glyph_B)).
Proof.
  assert ("A"%char <> NUL) as HA by discriminate.
  assert ("B"%char <> NUL) as HB by discriminate.
  split; [repeat split; assumption|].
  exact (advance_of_two_characters demo_quadratic demo_uninit "A" "B" []
           HA HB eq_refl eq_refl).
Defined.

(** C5 fails on the code.  For the empty text [insertString] does not
    leave the buffer as it found it: with a font whose glyph for
    character code 0 is a box of four lines it appends the twelve points
    of that box, and its accumulator ends at the advance of that glyph,
    2, not at 0. *)
Theorem insertString_empty_text_inserts_glyph_0 :
  insertString demo_quadratic demo_uninit "" [(9, 9)]
  = Some (tt, [(9, 9); (-6, 2); (-6, 2); (-2, 2); (-2, 2); (-2, 2);
               (-2, 8); (-2, 8); (-2, 8); (-6, 8); (-6, 8); (-6, 8);
               (-6, 2)])
  /\ insertString_advanceBy demo_quadratic demo_uninit "" []
     = Some (2, [(-6, 2); (-6, 2); (-2, 2); (-2, 2); (-2, 2);
                 (-2, 8); (-2, 8); (-2, 8); (-6, 8); (-6, 8); (-6, 8);
                 (-6, 2)]).
Proof. split; reflexivity. Qed.

(* ------------------------------------------------------------------ *)
(** * Further properties of the assembler *)

Section Bounds.

Context {F : Type} `{FloatOps F}.
Variable g : Globals F.

(** A loop with a body that fails on one of its elements fails. *)
Lemma for_each_fails {A : Type} (body : A -> M F unit) (l : list A) (a : A) :
  In a l -> (forall vs, body a vs = None) ->
  forall vs, for_each l body vs = None.
Proof.
  induction l as [|b l IH]; intros Hin Hfail vs; [destruct Hin|].
  simpl. unfold bind. destruct Hin as [->|Hin].
  - now rewrite Hfail.
  - destruct (body b vs) as [[u vs']|]; [now apply IH | reflexivity].
Qed.

Lemma push_vertex_fails (s : MySegment F) k adv sh sc vs :
  nth_error (x s) k = None \/ nth_error (y s) k = None ->
  push_vertex g s k adv sh sc vs = None.
Proof.
  unfold push_vertex, bind, index. intros [E|E]; rewrite E.
  - reflexivity.
  - now destruct (nth_error (x s) k).
Qed.

Lemma insertPoint_fails (s : MySegment F) k adv sh sc :
  nth_error (x s) k = None \/ nth_error (y s) k = None ->
  forall vs, insertPoint g s k adv sh sc vs = None.
Proof.
  intros E vs. unfold insertPoint.
  destruct (_ && _).
  - unfold bind. now rewrite push_vertex_fails.
  - destruct (_ && _); [|now apply push_vertex_fails].
    unfold bind. destruct (Nat.eqb k 0).
    + now rewrite push_vertex_fails.
    + unfold ret. now apply push_vertex_fails.
Qed.

Lemma insertSegment_fails adv sh sc (s : MySegment F) :
  wf_segment s = false -> forall vs, insertSegment g adv sh sc s vs = None.
Proof.
  unfold wf_segment. rewrite andb_false_iff, !Z.ltb_ge. intros Hbad vs.
  unfold insertSegment.
  destruct (Z_lt_le_dec (degree s) (Z.of_nat (List.length (x s))))
    as [Hx|Hx].
  - assert (Z.of_nat (List.length (y s)) <= degree s) as Hy by lia.
    apply (for_each_fails _ _ (List.length (y s))).
    + apply in_seq. lia.
    + apply insertPoint_fails. right. now apply nth_error_None.
  - apply (for_each_fails _ _ (List.length (x s))).
    + apply in_seq. lia.
    + apply insertPoint_fails. left. now apply nth_error_None.
Qed.

Lemma insertContour_fails adv sh sc (c : MyContour F) :
  wf_contour c = false -> forall vs, insertContour g adv sh sc c vs = None.
Proof.
  unfold wf_contour. intros Hbad vs.
  assert (exists s, In s c /\ wf_segment s = false) as (s & Hs & Hwf).
  { induction c as [|s c IH]; [discriminate|]. simpl in Hbad.
    destruct (wf_segment s) eqn:E.
    - destruct (IH Hbad) as (s' & Hs' & Hwf'). exists s'. split; [now right|assumption].
    - exists s. split; [now left | assumption]. }
  apply (for_each_fails _ _ s Hs). now apply insertSegment_fails.
Qed.

Lemma insertGlyphCharacter_fails c adv sh sc :
  wf_glyph (ExtractGlyph g c) = false ->
  forall vs, insertGlyphCharacter g c adv sh sc vs = None.
Proof.
  unfold wf_glyph. intros Hbad vs.
  assert (exists ct, In ct (contours (ExtractGlyph g c))
                     /\ wf_contour ct = false) as (ct & Hct & Hwf).
  { induction (contours (ExtractGlyph g c)) as [|ct cs IH]; [discriminate|].
    simpl in Hbad. destruct (wf_contour ct) eqn:E.
    - destruct (IH Hbad) as (ct' & Hct' & Hwf').
      exists ct'. split; [now right|assumption].
    - exists ct. split; [now left | assumption]. }
  unfold insertGlyphCharacter, bind.
  rewrite (for_each_fails _ _ ct Hct); [reflexivity|].
  now apply insertContour_fails.
Qed.

(** X1.  [insertGlyphCharacter] returns exactly on the glyphs whose
    segments keep the indices 0..degree inside their [x] and [y] arrays:
    on such a glyph it returns, on any other it reads outside an
    array. *)
Theorem insertGlyphCharacter_returns_iff_in_bounds c adv sh sc vs :
  (exists r, insertGlyphCharacter g c adv sh sc vs = Some r)
  <-> wf_glyph (ExtractGlyph g c) = true.
Proof.
  split.
  - intros [r Hr]. destruct (wf_glyph (ExtractGlyph g c)) eqn:E;
      [reflexivity|].
    now rewrite insertGlyphCharacter_fails in Hr.
  - intros Hwf. eexists. now apply insertGlyphCharacter_emits.
Qed.

Lemma length_expand_any (s : MySegment F) :
  wf_segment s = true ->
  List.length (expand g s) = segment_count (bezierType g) s.
Proof.
  intros Hwf. unfold expand, segment_count.
  destruct (degree s =? 1) eqn:E.
  - apply Z.eqb_eq in E.
    pose proof (length_control_points s Hwf ltac:(lia)) as Hl.
    rewrite E in Hl.
    destruct (control_points s) as [|p0 [|p1 [|p2 ps]]];
      simpl in Hl; try lia.
    now destruct (bezierType g).
  - revert Hwf. unfold wf_segment, control_points.
    rewrite andb_true_iff, !Z.ltb_lt. intros [Hx Hy].
    rewrite length_firstn, length_combine. lia.
Qed.

(** X2.  On a glyph within bounds the number of points
    [insertGlyphCharacter] appends is the sum over its segments of
    [targetDegree + 1] for a line and [degree + 1] for any other segment
    (none for a negative degree): a segment that is neither a line nor of
    the degree of the session is appended as it is, not refused and not
    converted. *)
Theorem insertGlyphCharacter_point_count c adv sh sc vs :
  wf_glyph (ExtractGlyph g c) = true ->
  exists out,
    insertGlyphCharacter g c adv sh sc vs
    = Some (advance (ExtractGlyph g c), vs ++ out)
    /\ List.length out
       = list_sum (map (segment_count (bezierType g))
                       (segments (ExtractGlyph g c))).
Proof.
  intros Hwf. exists (emitted g adv sh sc (segments (ExtractGlyph g c))).
  split; [now apply insertGlyphCharacter_emits|].
  unfold emitted. rewrite length_map.
  pose proof (wf_glyph_segments _ Hwf) as Hall.
  induction Hall as [|s ss Hs _ IH]; [reflexivity|].
  simpl. now rewrite length_app, IH, length_expand_any.
Qed.

End Bounds.

Section TextBuffer.

(** [strcpy] stops at the first NUL: what lies behind it in the source
    is not copied and the destination keeps its bytes there. *)
Lemma strcpy_stops_at_NUL (pre : list ascii) :
  forall dst rest,
    (forall c, In c pre -> c <> NUL) ->
    (List.length pre < List.length dst)%nat ->
    strcpy dst (pre ++ NUL :: rest)
    = pre ++ NUL :: skipn (List.length pre + 1) dst.
Proof.
  induction pre as [|c pre IH]; intros [|d dst] rest Hnul Hlen;
    simpl in Hlen; try lia.
  - reflexivity.
  - simpl.
    replace (Ascii.eqb c NUL) with false
      by (symmetry; apply Ascii.eqb_neq, Hnul; now left).
    f_equal. apply IH; [|lia].
    intros c' Hc'. apply Hnul. now right.
Qed.

Lemma textCharArr_with_NUL uninit text pre post :
  list_ascii_of_string text = pre ++ NUL :: post ->
  (forall c, In c pre -> c <> NUL) ->
  textCharArr uninit text
  = pre ++ NUL :: map uninit (seq (List.length pre + 1)
                                  (List.length post + 1)).
Proof.
  intros Htext Hnul. unfold textCharArr, c_str.
  rewrite <- length_list_ascii_of_string, Htext.
  rewrite <- app_assoc. simpl app.
  rewrite strcpy_stops_at_NUL.
  - rewrite skipn_map, skipn_seq, length_app. simpl List.length.
    replace (List.length pre + S (List.length post) + 1
             - (List.length pre + 1))%nat
      with (List.length post + 1)%nat by lia.
    reflexivity.
  - exact Hnul.
  - rewrite length_map, length_seq, length_app. simpl. lia.
Qed.

End TextBuffer.

Section StringBounds.

Context {F : Type} `{FloatOps F}.
Variable g : Globals F.

(** [insertString] on any text: the first element of the buffer, then
    the elements 1 .. length-1. *)
Lemma insertString_advanceBy_buffer uninit text vs :
  exists c0 cs,
    textCharArr uninit text = c0 :: cs
    /\ insertString_advanceBy g uninit text vs
       = spec_emitString g c0 (firstn (String.length text - 1) cs) vs.
Proof.
  pose proof (textCharArr_length uninit text) as Hlen.
  unfold insertString_advanceBy.
  destruct (textCharArr uninit text) as [|c0 cs] eqn:Hbuf;
    [simpl in Hlen; lia|].
  exists c0, cs. split; [reflexivity|].
  simpl in Hlen.
  unfold spec_emitString, spec_emitRest.
  unfold bind at 1. unfold index at 1. simpl nth_error.
  unfold bind.
  destruct (insertGlyphCharacter g c0 fzero (fontShiftBy g) (fontScaleBy g) vs)
    as [[a0 vs0]|]; [|reflexivity].
  set (n := (String.length text - 1)%nat).
  assert (List.length (firstn n cs) = n) as Hn
      by (rewrite length_firstn; lia).
  pose proof (for_acc_index
                (fun c acc =>
                   bind (insertGlyphCharacter g c acc (fontShiftBy g)
                                              (fontScaleBy g))
                        (fun a => ret (fadd acc a)))
                (skipn n cs) (firstn n cs) [c0] a0 vs0) as E.
  rewrite Hn in E.
  change ([c0] ++ firstn n cs ++ skipn n cs)
    with (c0 :: (firstn n cs ++ skipn n cs)) in E.
  rewrite firstn_skipn in E. exact E.
Qed.

Lemma insertGlyphCharacter_extends c adv sh sc vs r vs' :
  insertGlyphCharacter g c adv sh sc vs = Some (r, vs') ->
  exists suf, vs' = vs ++ suf.
Proof.
  unfold insertGlyphCharacter, bind, ret.
  destruct (for_each _ _ vs) as [[u v1]|] eqn:E; [|discriminate].
  intros E'. injection E' as _ <-.
  revert E. apply for_each_extends.
  intros ct. apply insertContour_extends.
Qed.

Lemma spec_emitRest_extends (cs : list ascii) :
  forall acc vs r vs',
    spec_emitRest g cs acc vs = Some (r, vs') -> exists suf, vs' = vs ++ suf.
Proof.
  unfold spec_emitRest.
  induction cs as [|c cs IH]; intros acc vs r vs'; simpl.
  - unfold ret. intros E. injection E as _ <-. exists []. now rewrite app_nil_r.
  - unfold bind at 1 2.
    destruct (insertGlyphCharacter g c acc _ _ vs) as [[a v1]|] eqn:E1;
      [|discriminate].
    unfold ret at 1. intros E2.
    apply insertGlyphCharacter_extends in E1 as [s1 ->].
    apply IH in E2 as [s2 ->].
    exists (s1 ++ s2). now rewrite app_assoc.
Qed.

(** The run of [insertString] on a font within bounds, for any text. *)
Lemma insertString_advanceBy_emits uninit text vs :
  (forall c, wf_glyph (ExtractGlyph g c) = true) ->
  exists c0 cs,
    textCharArr uninit text = c0 :: cs
    /\ insertString_advanceBy g uninit text vs
       = Some (accumulate (advance (ExtractGlyph g c0))
                 (map (fun c => advance (ExtractGlyph g c))
                      (firstn (String.length text - 1) cs)),
               vs ++ string_emitted g fzero
                       (c0 :: nil)
                  ++ string_emitted g (advance (ExtractGlyph g c0))
                       (firstn (String.length text - 1) cs)).
Proof.
  intros Hwf.
  destruct (insertString_advanceBy_buffer uninit text vs)
    as (c0 & cs & Hbuf & Hrun).
  exists c0, cs. split; [exact Hbuf|].
  rewrite Hrun, spec_emitString_emits by (intros c _; apply Hwf).
  simpl string_emitted. now rewrite app_nil_r.
Qed.

(** X3.  [insertString] only appends to [vertices]: whenever it
    returns, for any text, the buffer it found is an unchanged prefix of
    the buffer it leaves; and with a font within bounds it returns. *)
Theorem insertString_only_appends uninit text vs :
  (forall r vs',
      insertString g uninit text vs = Some (r, vs') ->
      exists suf, vs' = vs ++ suf)
  /\ ((forall c, wf_glyph (ExtractGlyph g c) = true) ->
      exists suf, insertString g uninit text vs = Some (tt, vs ++ suf)).
Proof.
  split.
  - intros r vs'. unfold insertString. unfold bind at 1.
    destruct (insertString_advanceBy_buffer uninit text vs)
      as (c0 & cs & _ & ->).
    unfold spec_emitString, bind.
    destruct (insertGlyphCharacter g c0 fzero _ _ vs) as [[a v1]|] eqn:E1;
      [|discriminate].
    destruct (spec_emitRest g _ a v1) as [[a' v2]|] eqn:E2; [|discriminate].
    unfold ret. intros E. injection E as _ <-.
    apply insertGlyphCharacter_extends in E1 as [s1 ->].
    apply spec_emitRest_extends in E2 as [s2 ->].
    exists (s1 ++ s2). now rewrite app_assoc.
  - intros Hwf.
    destruct (insertString_advanceBy_emits uninit text vs Hwf)
      as (c0 & cs & _ & Hrun).
    eexists. unfold insertString, bind. rewrite Hrun. reflexivity.
Qed.

(** X4.  [insertString] never reads the characters of the text that
    follow an embedded NUL: [strcpy] stops there, the rest of
    [textCharArr] keeps what the stack held, and two texts of the same
    length that agree up to their first NUL give the same run. *)
Theorem insertString_stops_reading_at_NUL
        uninit text1 text2 pre post1 post2 vs :
  list_ascii_of_string text1 = pre ++ NUL :: post1 ->
  list_ascii_of_string text2 = pre ++ NUL :: post2 ->
  (forall c, In c pre -> c <> NUL) ->
  List.length post1 = List.length post2 ->
  textCharArr uninit text1
  = pre ++ NUL :: map uninit (seq (List.length pre + 1)
                                  (List.length post1 + 1))
  /\ insertString_advanceBy g uninit text1 vs
     = insertString_advanceBy g uninit text2 vs
  /\ insertString g uninit text1 vs = insertString g uninit text2 vs.
Proof.
  intros H1 H2 Hnul Hlen.
  pose proof (textCharArr_with_NUL uninit text1 pre post1 H1 Hnul) as B1.
  pose proof (textCharArr_with_NUL uninit text2 pre post2 H2 Hnul) as B2.
  assert (String.length text1 = String.length text2) as Hl.
  { rewrite <- !length_list_ascii_of_string, H1, H2, !length_app.
    simpl. now rewrite Hlen. }
  assert (insertString_advanceBy g uninit text1 vs
          = insertString_advanceBy g uninit text2 vs) as Hrun.
  { unfold insertString_advanceBy. now rewrite B1, B2, Hl, Hlen. }
  split; [exact B1|]. split; [exact Hrun|].
  unfold insertString, bind. now rewrite Hrun.
Qed.

End StringBounds.

Section FirstCharacter.

Context {F : Type} `{FloatOps F}.
Variable g : Globals F.

(** A C string has a first NUL. *)
Lemma first_NUL (l : list ascii) :
  exists pre rest,
    l ++ [NUL] = pre ++ NUL :: rest /\ (forall c, In c pre -> c <> NUL).
Proof.
  induction l as [|c l (pre & rest & Hsplit & Hpre)].
  - exists [], []. split; [reflexivity | intros c []].
  - destruct (Ascii.eqb c NUL) eqn:E.
    + apply Ascii.eqb_eq in E. subst c.
      exists [], (l ++ [NUL]). split; [reflexivity | intros c []].
    + apply Ascii.eqb_neq in E.
      exists (c :: pre), rest. split.
      * simpl. now rewrite Hsplit.
      * intros c' [<-|Hc']; [exact E | now apply Hpre].
Qed.

Lemma textCharArr_head uninit text c0 cs :
  textCharArr uninit text = c0 :: cs ->
  c0 = match text with
       | EmptyString => NUL
       | String c _ => c
       end.
Proof.
  unfold textCharArr, c_str. rewrite Nat.add_1_r.
  destruct text as [|c text]; simpl; intros E; now injection E.
Qed.

(** C10.  For every text, the empty one included, [insertString] copies
    the text into [textCharArr], which has [length + 1] elements: the
    characters up to the first NUL of the C string and that NUL, the
    whole text with its terminator when the text has no NUL.  Index 0,
    which it reads without a test, is inside the buffer and holds the
    first character of the text, or the terminator when there is none;
    the glyph of that element is inserted first, at offset 0.  For the
    empty text that element is the NUL terminator, and [insertString] is
    one call of [insertGlyphCharacter] on character code 0, which appends
    the points of that glyph. *)
Theorem insertString_reads_index_0 uninit vs :
  (forall text,
      List.length (textCharArr uninit text) = (String.length text + 1)%nat
      /\ (exists pre rest,
             c_str text = pre ++ NUL :: rest
             /\ (forall c, In c pre -> c <> NUL)
             /\ textCharArr uninit text
                = pre ++ NUL
                      :: skipn (List.length pre + 1)
                               (map uninit
                                    (seq 0 (String.length text + 1))))
      /\ ((forall c, In c (list_ascii_of_string text) -> c <> NUL) ->
          textCharArr uninit text = c_str text)
      /\ exists c0 cs,
          c0 = match text with
               | EmptyString => NUL
               | String c _ => c
               end
          /\ textCharArr uninit text = c0 :: cs
          /\ nth_error (textCharArr uninit text) 0 = Some c0
          /\ insertString_advanceBy g uninit text vs
             = bind (insertGlyphCharacter g c0 fzero (fontShiftBy g)
                                          (fontScaleBy g))
                    (spec_emitRest g (firstn (String.length text - 1) cs))
                    vs)
  /\ nth_error (textCharArr uninit EmptyString) 0 = Some NUL
  /\ insertString g uninit EmptyString vs
     = bind (insertGlyphCharacter g NUL fzero (fontShiftBy g) (fontScaleBy g))
            (fun _ => ret tt) vs
  /\ (wf_glyph (ExtractGlyph g NUL) = true ->
      insertString g uninit EmptyString vs
      = Some (tt, vs ++ emitted g fzero (fontShiftBy g) (fontScaleBy g)
                                (segments (ExtractGlyph g NUL)))).
Proof.
  assert (insertString g uninit EmptyString vs
          = bind (insertGlyphCharacter g NUL fzero (fontShiftBy g)
                                       (fontScaleBy g))
                 (fun _ => ret tt) vs) as Hone.
  { unfold insertString, insertString_advanceBy, bind, index. simpl.
    now destruct (insertGlyphCharacter g NUL fzero _ _ vs) as [[a v]|]. }
  split; [|split; [|split]].
  - intros text. split; [apply textCharArr_length|].
    split; [|split].
    + destruct (first_NUL (list_ascii_of_string text))
        as (pre & rest & Hsplit & Hpre).
      exists pre, rest. split; [exact Hsplit|]. split; [exact Hpre|].
      unfold textCharArr. fold (c_str text). unfold c_str. rewrite Hsplit.
      apply strcpy_stops_at_NUL; [exact Hpre|].
      rewrite length_map, length_seq, <- length_list_ascii_of_string.
      apply (f_equal (@List.length ascii)) in Hsplit.
      rewrite !length_app in Hsplit. simpl in Hsplit. lia.
    + apply textCharArr_c_str.
    + destruct (insertString_advanceBy_buffer g uninit text vs)
        as (c0 & cs & Hbuf & Hrun).
      exists c0, cs.
      split; [exact (textCharArr_head uninit text c0 cs Hbuf)|].
      split; [exact Hbuf|]. split; [now rewrite Hbuf|].
      exact Hrun.
  - reflexivity.
  - exact Hone.
  - intros Hwf. rewrite Hone. unfold bind.
    now rewrite insertGlyphCharacter_emits.
Qed.

End FirstCharacter.

Section StringShape.

Context {F : Type} `{FloatOps F}.
Variable g : Globals F.

Lemma string_emitted_snd v (cs : list ascii) :
  forall off off',
    map snd (string_emitted (with_fontShiftBy g v) off' cs)
    = map snd (string_emitted g off cs).
Proof.
  induction cs as [|c cs IH]; intros off off'; [reflexivity|].
  simpl string_emitted. rewrite !map_app. f_equal.
  - unfold emitted. rewrite !map_map. reflexivity.
  - apply IH.
Qed.

(** Two runs of [insertString] that differ in [fontShiftBy] only. *)
Lemma insertString_runs_shifted uninit text v vs :
  (forall c, wf_glyph (ExtractGlyph g c) = true) ->
  exists a out out',
    insertString_advanceBy g uninit text vs = Some (a, vs ++ out)
    /\ insertString_advanceBy (with_fontShiftBy g v) uninit text vs
       = Some (a, vs ++ out')
    /\ map snd out' = map snd out.
Proof.
  intros Hwf.
  destruct (insertString_advanceBy_emits g uninit text vs Hwf)
    as (c0 & cs & Hbuf & Hrun).
  destruct (insertString_advanceBy_emits (with_fontShiftBy g v) uninit text vs
              Hwf) as (c0' & cs' & Hbuf' & Hrun').
  rewrite Hbuf in Hbuf'. injection Hbuf' as <- <-.
  do 3 eexists.
  split; [exact Hrun|]. split; [exact Hrun'|].
  rewrite !map_app. f_equal; apply string_emitted_snd.
Qed.

(** X5.  The horizontal shift moves the text along x only: with another
    [fontShiftBy], everything else the same, [insertString] appends as
    many points and they have the same y coordinates, for any text. *)
Theorem insertString_shift_keeps_y uninit text v vs :
  (forall c, wf_glyph (ExtractGlyph g c) = true) ->
  exists out out',
    insertString g uninit text vs = Some (tt, vs ++ out)
    /\ insertString (with_fontShiftBy g v) uninit text vs
       = Some (tt, vs ++ out')
    /\ map snd out' = map snd out
    /\ List.length out' = List.length out.
Proof.
  intros Hwf.
  destruct (insertString_runs_shifted uninit text v vs Hwf)
    as (a & out & out' & Hrun & Hrun' & Hsnd).
  exists out, out'.
  split; [unfold insertString, bind; now rewrite Hrun|].
  split; [unfold insertString, bind; now rewrite Hrun'|].
  split; [exact Hsnd|].
  apply (f_equal (@List.length F)) in Hsnd.
  now rewrite !length_map in Hsnd.
Qed.

Lemma string_emitted_whole_patches (cs : list ascii) :
  (forall c, wf_glyph (ExtractGlyph g c) = true) ->
  (forall c, Forall (fun s : MySegment F =>
                       degree s = 1
                       \/ degree s = targetDegree (bezierType g))
                    (segments (ExtractGlyph g c))) ->
  forall off,
    (targetDegree (bezierType g) + 1
     | Z.of_nat (List.length (string_emitted g off cs))).
Proof.
  intros Hwf Hdeg. induction cs as [|c cs IH]; intros off.
  - apply Z.divide_0_r.
  - simpl string_emitted. rewrite length_app, Nat2Z.inj_add.
    apply Z.divide_add_r; [|apply IH].
    unfold emitted. rewrite length_map.
    rewrite (length_flat_map_expand g _ (wf_glyph_segments _ (Hwf c))
                                    (Hdeg c)).
    apply Z.divide_factor_r.
Qed.

(** X6.  With a font all of whose segments are lines or of the degree
    of the session, [insertString] appends a multiple of
    [targetDegree + 1] points, for any text: the patches of a string stay
    aligned from glyph to glyph. *)
Theorem insertString_whole_patches uninit text vs :
  (forall c, wf_glyph (ExtractGlyph g c) = true) ->
  (forall c, Forall (fun s : MySegment F =>
                       degree s = 1
                       \/ degree s = targetDegree (bezierType g))
                    (segments (ExtractGlyph g c))) ->
  exists out,
    insertString g uninit text vs = Some (tt, vs ++ out)
    /\ (targetDegree (bezierType g) + 1 | Z.of_nat (List.length out)).
Proof.
  intros Hwf Hdeg.
  destruct (insertString_advanceBy_emits g uninit text vs Hwf)
    as (c0 & cs & _ & Hrun).
  eexists. split.
  - unfold insertString, bind. rewrite Hrun. reflexivity.
  - rewrite length_app, Nat2Z.inj_add.
    apply Z.divide_add_r; now apply string_emitted_whole_patches.
Qed.

End StringShape.

(* ------------------------------------------------------------------ *)
(** * Properties of the program around the assembler *)

(** Computing with the record of the process-wide variables. *)
Ltac norm_state :=
  cbv beta iota zeta delta
      [App.set_vertices App.set_colours App.set_cubicBezier
       App.set_quadraticBezier App.set_fontLoaded App.set_scaleBy
       App.set_shiftBy App.set_fontShiftBy App.set_fontYShiftBy
       App.set_fontScaleBy App.set_resetScroll App.set_bezierType
       App.set_textIsScrolling App.set_textScrollSpeed
       App.set_glyphExtractor App.set_patchVertices
       App.set_windowShouldClose App.set_cout
       App.vertices App.colours App.cubicBezier App.quadraticBezier
       App.drawPoints App.fontLoaded App.scaleBy App.shiftBy
       App.fontShiftBy App.fontYShiftBy App.fontScaleBy App.resetScroll
       App.bezierType App.textIsScrolling App.textScrollSpeed
       App.glyphExtractor App.patchVertices App.windowShouldClose App.cout
       App.globals App.quadratic_flags App.cubic_flags App.load_font
       App.choose_text App.loadLoraBoldItalic App.loadInconsolata
       App.loadQarmicSans App.loadAlexBrush App.addVertices App.addColours
       BezierCurve_eqb FontLoaded_eqb targetDegree snd fst].

Ltac norm_state_in Hyp :=
  cbv beta iota zeta delta
      [App.set_vertices App.set_colours App.set_cubicBezier
       App.set_quadraticBezier App.set_fontLoaded App.set_scaleBy
       App.set_shiftBy App.set_fontShiftBy App.set_fontYShiftBy
       App.set_fontScaleBy App.set_resetScroll App.set_bezierType
       App.set_textIsScrolling App.set_textScrollSpeed
       App.set_glyphExtractor App.set_patchVertices
       App.set_windowShouldClose App.set_cout
       App.vertices App.colours App.cubicBezier App.quadraticBezier
       App.drawPoints App.fontLoaded App.scaleBy App.shiftBy
       App.fontShiftBy App.fontYShiftBy App.fontScaleBy App.resetScroll
       App.bezierType App.textIsScrolling App.textScrollSpeed
       App.glyphExtractor App.patchVertices App.windowShouldClose App.cout
       App.globals App.quadratic_flags App.cubic_flags App.load_font
       App.choose_text App.loadLoraBoldItalic App.loadInconsolata
       App.loadQarmicSans App.loadAlexBrush App.addVertices App.addColours
       BezierCurve_eqb FontLoaded_eqb targetDegree snd fst] in Hyp.

Section Loaders.

Context {F D : Type} `{FloatOps F} `{DoubleOps F D}.
Variable LoadFontFile :
  string -> (ascii -> MyGlyph F) -> bool * (ascii -> MyGlyph F).
Variable uninit : nat -> ascii.

(** The loop that pushes one colour for each vertex. *)
Lemma colour_loop (w : vec3 F) (l : list nat) :
  forall st : App.state F,
    fold_left (fun st (_ : nat) =>
                 App.set_colours (App.colours st ++ [w]) st) l st
    = App.set_colours (App.colours st ++ repeat w (List.length l)) st.
Proof.
  induction l as [|a l IH]; intros st; destruct st; simpl.
  - unfold App.set_colours. simpl. now rewrite app_nil_r.
  - rewrite IH. unfold App.set_colours. simpl. now rewrite <- app_assoc.
Qed.

Lemma insert_and_colour_spec toPass (st st' : App.state F) :
  App.insert_and_colour uninit toPass st = Some st' ->
  exists out,
    insertString (App.globals st) uninit toPass (App.vertices st)
    = Some (tt, out)
    /\ st' = App.set_colours
               (App.colours st
                ++ repeat (flit 1, flit 1, flit 1) (List.length out))
               (App.set_vertices out st).
Proof.
  unfold App.insert_and_colour.
  destruct (insertString _ _ _ _) as [[[] out]|]; [|discriminate].
  intros E. injection E as <-. exists out. split; [reflexivity|].
  rewrite colour_loop, length_seq. destruct st; reflexivity.
Qed.

Lemma insert_and_colour_eq toPass (st : App.state F) out :
  insertString (App.globals st) uninit toPass (App.vertices st)
  = Some (tt, out) ->
  App.insert_and_colour uninit toPass st
  = Some (App.set_colours
            (App.colours st
             ++ repeat (flit 1, flit 1, flit 1) (List.length out))
            (App.set_vertices out st)).
Proof.
  intros Hout. unfold App.insert_and_colour. rewrite Hout.
  rewrite colour_loop, length_seq. destruct st; reflexivity.
Qed.

(** The cases of a run of a loader: the font file loads or not, the
    text scrolls or not, the shift is reset or not; then the run of
    [insertString], which gives [out]. *)
Ltac loader_run Hrun out Hout :=
  norm_state_in Hrun;
  match type of Hrun with
  | context [LoadFontFile ?p ?e] =>
      destruct (LoadFontFile p e) as [[|] ?ex] eqn:?Eload
  end;
  norm_state_in Hrun;
  repeat match type of Hrun with
         | context [if ?b then _ else _] =>
             destruct b eqn:?Ecase; norm_state_in Hrun
         end;
  match type of Hrun with
  | context [App.insert_and_colour ?u ?t ?s] =>
      let E := fresh "E" in
      destruct (App.insert_and_colour u t s) as [?st|] eqn:E;
      [apply insert_and_colour_spec in E as (out & Hout & ->);
       norm_state_in Hout; norm_state_in Hrun
      |discriminate Hrun]
  end.

(** A loader leaves the program rebuilt. *)
Lemma loader_rebuilds (L : App.state F -> option (App.state F))
      (st st' : App.state F) :
  In L (App.loaders LoadFontFile uninit) ->
  L st = Some st' -> App.rebuilt uninit st'.
Proof.
  intros [<-|[<-|[<-|[<-|[]]]]] Hrun; destruct st;
    loader_run Hrun out Hout;
    injection Hrun as <-;
    unfold App.rebuilt; norm_state;
    (split; [eexists; exact Hout|]); repeat split.
Qed.




(** Two runs on an empty buffer that differ in the horizontal shift
    only. *)
Lemma insertString_two_shifts
      (e : ascii -> MyGlyph F) b s1 s2 ys sc text out1 :
  (forall c, wf_glyph (e c) = true) ->
  insertString (mkGlobals e b s1 ys sc) uninit text [] = Some (tt, out1) ->
  exists out2,
    insertString (mkGlobals e b s2 ys sc) uninit text [] = Some (tt, out2)
    /\ map snd out2 = map snd out1
    /\ List.length out2 = List.length out1.
Proof.
  intros Hwf Hrun1.
  destruct (insertString_runs_shifted (mkGlobals e b s1 ys sc)
              uninit text s2 [] Hwf)
    as (a & out & out' & Ha & Ha' & Hsnd).
  unfold insertString, bind in Hrun1. rewrite Ha in Hrun1.
  unfold ret in Hrun1.
  assert (out1 = out) as -> by (simpl in Hrun1; congruence).
  exists out'. split.
  - unfold insertString, bind.
    change (mkGlobals e b s2 ys sc)
      with (with_fontShiftBy (mkGlobals e b s1 ys sc) s2).
    now rewrite Ha'.
  - split; [exact Hsnd|].
    apply (f_equal (@List.length F)) in Hsnd.
    now rewrite !length_map in Hsnd.
Qed.


(** X8.  When a loader returns and every segment of the extractor's
    glyphs is a line or of the degree the loader set, the number of
    vertices it leaves is a multiple of the patch size it gave to
    [glPatchParameteri]: 3 for the quadratic fonts, 4 for the cubic
    one. *)
Theorem loader_whole_patches
        (L : App.state F -> option (App.state F)) (st st' : App.state F) :
  In L (App.loaders LoadFontFile uninit) ->
  L st = Some st' ->
  (forall c, wf_glyph (App.glyphExtractor st' c) = true) ->
  (forall c, Forall (fun s : MySegment F =>
                       degree s = 1
                       \/ degree s = targetDegree (App.bezierType st'))
                    (segments (App.glyphExtractor st' c))) ->
  App.patchVertices st' = targetDegree (App.bezierType st') + 1
  /\ (App.patchVertices st' | Z.of_nat (List.length (App.vertices st'))).
Proof.
  intros HL Hrun Hwf Hdeg.
  destruct (loader_rebuilds L st st' HL Hrun) as ([toPass Hv] & _ & Hp & _).
  split; [exact Hp|]. rewrite Hp.
  destruct (insertString_advanceBy_emits (App.globals st') uninit toPass []
              Hwf) as (c0 & cs & _ & Hadv).
  rewrite app_nil_l in Hadv.
  unfold insertString, bind in Hv. rewrite Hadv in Hv. unfold ret in Hv.
  assert (App.vertices st'
          = string_emitted (App.globals st') fzero [c0]
            ++ string_emitted (App.globals st')
                 (advance (ExtractGlyph (App.globals st') c0))
                 (firstn (String.length toPass - 1) cs)) as ->
      by congruence.
  rewrite length_app, Nat2Z.inj_add.
  apply Z.divide_add_r;
    now apply (string_emitted_whole_patches (App.globals st')).
Qed.

(** The second run of a loader, on the state the first run left. *)
Ltac second_run Hstable :=
  norm_state;
  match goal with
  | Eload : LoadFontFile ?p ?e = (_, ?ex) |- context [LoadFontFile ?p ?ex] =>
      let Hst := fresh "Hst" in
      pose proof (Hstable p e) as Hst;
      rewrite Eload in Hst; cbn [snd] in Hst;
      destruct (LoadFontFile p ex) as [[|] ?ex2];
      cbn [snd] in Hst; subst
  end;
  norm_state;
  repeat match goal with
         | |- context [if ?b then _ else _] => destruct b; norm_state
         end.

(** A loader run again on static text. *)
Lemma loader_rerun_static
      (L : App.state F -> option (App.state F)) (st st1 : App.state F) :
  In L (App.loaders LoadFontFile uninit) ->
  (forall p e,
      snd (LoadFontFile p (snd (LoadFontFile p e)))
      = snd (LoadFontFile p e)) ->
  App.textIsScrolling st = false ->
  L st = Some st1 ->
  exists c, L st1 = Some (App.set_cout c st1).
Proof.
  intros HL Hstable Hstatic Hrun.
  destruct HL as [<-|[<-|[<-|[<-|[]]]]];
    (destruct st; norm_state_in Hstatic; subst;
     loader_run Hrun out Hout;
     injection Hrun as <-;
     second_run Hstable;
     match goal with
     | |- context [App.insert_and_colour ?u ?t ?s] =>
         rewrite (insert_and_colour_eq t s out Hout)
     end;
     norm_state; eexists; reflexivity).
Qed.

(** A loader leaves the mode the main loop tests as it found it. *)
Lemma loader_keeps_mode
      (L : App.state F -> option (App.state F)) (st st1 : App.state F) :
  In L (App.loaders LoadFontFile uninit) ->
  L st = Some st1 ->
  App.textIsScrolling st1 = App.textIsScrolling st
  /\ App.fontLoaded st1 = App.fontLoaded st
  /\ App.textScrollSpeed st1 = App.textScrollSpeed st.
Proof.
  intros [<-|[<-|[<-|[<-|[]]]]] Hrun; destruct st;
    loader_run Hrun out Hout;
    injection Hrun as <-;
    norm_state; repeat split.
Qed.

(** X9.  While the text does not scroll, running a loader again changes
    nothing but [cout], provided loading the same font file again leaves
    the extractor as it is: the vertices, the colours and every setting
    stay as the first run left them.  The reload of the main loop does
    run [loadInconsolata] (when [fontLoaded] is INCONSOLATA) and
    [loadQarmicSans] (when it is QARMIC_SANS) again on such a state while
    [textScrollSpeed] is not zero, because it tests [textScrollSpeed] and
    not [textIsScrolling]; that frame then changes nothing but [cout]
    either.  With a zero [textScrollSpeed] the reload leaves the state
    alone. *)
Theorem static_reload_changes_nothing
        (L : App.state F -> option (App.state F)) (st st1 : App.state F) :
  In L (App.loaders LoadFontFile uninit) ->
  (forall p e,
      snd (LoadFontFile p (snd (LoadFontFile p e)))
      = snd (LoadFontFile p e)) ->
  App.textIsScrolling st = false ->
  L st = Some st1 ->
  (exists c, L st1 = Some (App.set_cout c st1))
  /\ (fnonzero (App.textScrollSpeed st) = true ->
      (App.fontLoaded st = INCONSOLATA ->
       App.reload LoadFontFile uninit st1
       = App.loadInconsolata LoadFontFile uninit st1)
      /\ (App.fontLoaded st = QARMIC_SANS ->
          App.reload LoadFontFile uninit st1
          = App.loadQarmicSans LoadFontFile uninit st1))
  /\ (fnonzero (App.textScrollSpeed st) = true ->
      (L = App.loadInconsolata LoadFontFile uninit
       /\ App.fontLoaded st = INCONSOLATA)
      \/ (L = App.loadQarmicSans LoadFontFile uninit
          /\ App.fontLoaded st = QARMIC_SANS) ->
      exists c,
        App.reload LoadFontFile uninit st1 = Some (App.set_cout c st1))
  /\ (fnonzero (App.textScrollSpeed st) = false ->
      App.reload LoadFontFile uninit st1 = Some st1).
Proof.
  intros HL Hstable Hstatic Hrun.
  pose proof (loader_rerun_static L st st1 HL Hstable Hstatic Hrun) as Hagain.
  destruct (loader_keeps_mode L st st1 HL Hrun) as (Hscroll & Hfont & Hspeed).
  assert (fnonzero (App.textScrollSpeed st) = true ->
          (App.fontLoaded st = INCONSOLATA ->
           App.reload LoadFontFile uninit st1
           = App.loadInconsolata LoadFontFile uninit st1)
          /\ (App.fontLoaded st = QARMIC_SANS ->
              App.reload LoadFontFile uninit st1
              = App.loadQarmicSans LoadFontFile uninit st1)) as Hframe.
  { intros Hnz. split; intros Hf; unfold App.reload;
      rewrite Hscroll, Hstatic, Hfont, Hspeed, Hf, Hnz; reflexivity. }
  split; [exact Hagain|]. split; [exact Hframe|]. split.
  - intros Hnz [[-> Hf]|[-> Hf]].
    + now rewrite (proj1 (Hframe Hnz) Hf).
    + now rewrite (proj2 (Hframe Hnz) Hf).
  - intros Hz. unfold App.reload.
    rewrite Hscroll, Hstatic, Hspeed, Hz. reflexivity.
Qed.

(** X10.  While the text scrolls, the next run of a loader moves it
    along x only: provided loading the same font file again leaves the
    extractor as it is and its glyphs are within bounds, the run returns,
    with as many vertices as before and the same y coordinates, and with
    the scale, the vertical shift and the degree unchanged. *)
Theorem scrolling_reload_keeps_y
        (L : App.state F -> option (App.state F)) (st st1 : App.state F) :
  In L (App.scrolling_loaders LoadFontFile uninit) ->
  (forall p e,
      snd (LoadFontFile p (snd (LoadFontFile p e)))
      = snd (LoadFontFile p e)) ->
  App.textIsScrolling st = true ->
  L st = Some st1 ->
  (forall c, wf_glyph (App.glyphExtractor st1 c) = true) ->
  exists st2,
    L st1 = Some st2
    /\ map snd (App.vertices st2) = map snd (App.vertices st1)
    /\ List.length (App.vertices st2) = List.length (App.vertices st1)
    /\ App.fontScaleBy st2 = App.fontScaleBy st1
    /\ App.fontYShiftBy st2 = App.fontYShiftBy st1
    /\ App.bezierType st2 = App.bezierType st1
    /\ App.textIsScrolling st2 = true.
Proof.
  intros HL Hstable Hscroll Hrun Hwf.
  destruct HL as [<-|[<-|[<-|[]]]];
    (destruct st; norm_state_in Hscroll; subst;
     loader_run Hrun out Hout;
     injection Hrun as <-;
     norm_state_in Hwf;
     second_run Hstable;
     match goal with
     | |- context [App.insert_and_colour ?u ?t
                     (App.mkState _ _ _ _ _ _ _ _ ?s2 ?ys ?sc _ ?b _ _ ?e
                                  _ _ _)] =>
         destruct (insertString_two_shifts e b _ s2 ys sc t out Hwf Hout)
           as (out2 & Hout2 & Hsnd & Hlen);
         match goal with
         | |- context [App.insert_and_colour ?u ?t ?s] =>
             rewrite (insert_and_colour_eq t s out2 Hout2)
         end
     end;
     norm_state;
     eexists; (split; [reflexivity|]); norm_state;
     repeat split; assumption).
Qed.

End Loaders.

Section Keys.

Context {F D : Type} `{FloatOps F} `{DoubleOps F D}.
Variable LoadFontFile :
  string -> (ascii -> MyGlyph F) -> bool * (ascii -> MyGlyph F).
Variable uninit : nat -> ascii.
Variable glfw : GLFW.

(** X11.  [KeyCallback] acts on presses of its eleven keys only: an
    event whose action is not [GLFW_PRESS] (a release, a repeat), or
    whose key is none of them, leaves every variable as it is. *)
Theorem KeyCallback_ignores_other_events
        (st : App.state F) (key scancode action mods : Z) :
  action <> GLFW_PRESS glfw \/ ~ In key (bound_keys glfw) ->
  App.KeyCallback LoadFontFile uninit glfw st key scancode action mods
  = Some st.
Proof.
  intros [Haction|Hkey]; unfold App.KeyCallback; cbv zeta.
  - apply Z.eqb_neq in Haction. rewrite Haction, !andb_false_r.
    reflexivity.
  - repeat match goal with
           | |- context [key =? ?k] =>
               replace (key =? k) with false
                 by (symmetry; apply Z.eqb_neq; intros ->; apply Hkey;
                     unfold bound_keys; simpl; tauto)
           end.
    reflexivity.
Qed.

(** The keys are told apart when their codes differ. *)
Lemma bound_keys_distinct :
  NoDup (bound_keys glfw) ->
  forall i j a b,
    nth_error (bound_keys glfw) i = Some a ->
    nth_error (bound_keys glfw) j = Some b ->
    i <> j -> (a =? b) = false.
Proof.
  intros Hnd i j a b Hi Hj Hij. apply Z.eqb_neq. intros ->.
  apply Hij.
  apply (proj1 (NoDup_nth_error (bound_keys glfw)) Hnd).
  - apply nth_error_Some. now rewrite Hi.
  - now rewrite Hi, Hj.
Qed.

(** Rewrites the tests of the branches before the one of key number
    [i], then the test of that branch. *)
Ltac take_branch Hnd i :=
  unfold App.KeyCallback; cbv zeta;
  rewrite ?Z.eqb_refl;
  repeat match goal with
         | |- context [?a =? ?b] =>
             first
               [ rewrite (bound_keys_distinct Hnd i 0 a b eq_refl eq_refl
                            ltac:(discriminate))
               | rewrite (bound_keys_distinct Hnd i 1 a b eq_refl eq_refl
                            ltac:(discriminate))
               | rewrite (bound_keys_distinct Hnd i 2 a b eq_refl eq_refl
                            ltac:(discriminate))
               | rewrite (bound_keys_distinct Hnd i 3 a b eq_refl eq_refl
                            ltac:(discriminate))
               | rewrite (bound_keys_distinct Hnd i 4 a b eq_refl eq_refl
                            ltac:(discriminate))
               | rewrite (bound_keys_distinct Hnd i 5 a b eq_refl eq_refl
                            ltac:(discriminate))
               | rewrite (bound_keys_distinct Hnd i 6 a b eq_refl eq_refl
                            ltac:(discriminate))
               | rewrite (bound_keys_distinct Hnd i 7 a b eq_refl eq_refl
                            ltac:(discriminate))
               | rewrite (bound_keys_distinct Hnd i 8 a b eq_refl eq_refl
                            ltac:(discriminate))
               | rewrite (bound_keys_distinct Hnd i 9 a b eq_refl eq_refl
                            ltac:(discriminate)) ]
         end;
  cbn [andb].

(** X12.  A press of Q or W puts a figure in the buffers, whatever they
    held: Q sets QUADRATIC with patch size 3 and leaves the 12 vertices
    of the cup (4 patches of 3), W sets CUBIC with patch size 4 and leaves
    the 20 vertices of the fish (5 patches of 4); no font is loaded and
    nothing scrolls; [colours] gets 22 entries, more than there are
    vertices. *)
Theorem figure_keys (st : App.state F) (key scancode mods : Z) :
  NoDup (bound_keys glfw) ->
  key = GLFW_KEY_Q glfw \/ key = GLFW_KEY_W glfw ->
  exists st',
    App.KeyCallback LoadFontFile uninit glfw st key scancode
                    (GLFW_PRESS glfw) mods = Some st'
    /\ App.fontLoaded st' = NO_FONT
    /\ App.textIsScrolling st' = false
    /\ List.length (App.colours st') = 22%nat
    /\ App.patchVertices st' = targetDegree (App.bezierType st') + 1
    /\ Z.of_nat (List.length (App.vertices st'))
       = (if key =? GLFW_KEY_Q glfw then 4 else 5) * App.patchVertices st'
    /\ App.bezierType st'
       = (if key =? GLFW_KEY_Q glfw then QUADRATIC else CUBIC)
    /\ App.patchVertices st' = (if key =? GLFW_KEY_Q glfw then 3 else 4)
    /\ List.length (App.vertices st')
       = (if key =? GLFW_KEY_Q glfw then 12%nat else 20%nat)
    /\ (forall v c,
          App.KeyCallback LoadFontFile uninit glfw
                          (App.set_colours c (App.set_vertices v st))
                          key scancode (GLFW_PRESS glfw) mods
          = Some st').
Proof.
  intros Hnd [-> | ->]; destruct st.
  - take_branch Hnd 1%nat. norm_state.
    eexists. split; [reflexivity|]. norm_state.
    repeat (split; [reflexivity|]). intros v c. reflexivity.
  - take_branch Hnd 2%nat. norm_state.
    eexists. split; [reflexivity|]. norm_state.
    repeat (split; [reflexivity|]). intros v c. reflexivity.
Qed.

(** X13.  Escape, O and P change one variable each: Escape the close
    flag of the window, O and P the scroll speed; the buffers, the mode
    and the other settings stay. *)
Theorem one_variable_keys (st : App.state F) (scancode mods : Z) :
  NoDup (bound_keys glfw) ->
  App.KeyCallback LoadFontFile uninit glfw st (GLFW_KEY_ESCAPE glfw)
                  scancode (GLFW_PRESS glfw) mods
  = Some (App.set_windowShouldClose true st)
  /\ (exists v,
         App.KeyCallback LoadFontFile uninit glfw st (GLFW_KEY_O glfw)
                         scancode (GLFW_PRESS glfw) mods
         = Some (App.set_textScrollSpeed v st))
  /\ (exists v,
         App.KeyCallback LoadFontFile uninit glfw st (GLFW_KEY_P glfw)
                         scancode (GLFW_PRESS glfw) mods
         = Some (App.set_textScrollSpeed v st)).
Proof.
  intros Hnd. split; [|split].
  - take_branch Hnd 0%nat. reflexivity.
  - take_branch Hnd 9%nat.
    destruct (dle _ _); eexists; reflexivity.
  - take_branch Hnd 10%nat. eexists; reflexivity.
Qed.


Lemma rebuilt_consistent (st : App.state F) :
  App.rebuilt uninit st -> App.consistent st.
Proof.
  intros (_ & Hc & Hp & Hcb & Hqb). split.
  - rewrite Hc, repeat_length. apply Nat.le_refl.
  - right. repeat split; assumption.
Qed.

Lemma loader_consistent (L : App.state F -> option (App.state F))
      (st st' : App.state F) :
  In L (App.loaders LoadFontFile uninit) ->
  L st = Some st' -> App.consistent st'.
Proof.
  intros HL Hrun. apply rebuilt_consistent.
  exact (loader_rebuilds LoadFontFile uninit L st st' HL Hrun).
Qed.

(** The leaves of [KeyCallback] and of [reload]: a loader, or a few
    assignments. *)
Ltac leaf st Hcons Hstep :=
  first
    [ eapply loader_consistent; [|exact Hstep];
      unfold App.loaders; simpl; tauto
    | injection Hstep as <-; destruct st;
      unfold App.consistent in *; norm_state; norm_state_in Hcons;
      first [ exact Hcons
            | split; [simpl; lia | right; repeat split] ] ].

Lemma step_consistent (st st' : App.state F) (e : App.event) :
  App.consistent st ->
  App.step LoadFontFile uninit glfw st e = Some st' ->
  App.consistent st'.
Proof.
  intros Hcons Hstep. destruct e as [key scancode action mods|];
    simpl in Hstep.
  - unfold App.KeyCallback in Hstep. cbv zeta in Hstep.
    repeat match type of Hstep with
           | (if ?b then _ else _) = _ => destruct b
           end; leaf st Hcons Hstep.
  - unfold App.reload in Hstep.
    repeat match type of Hstep with
           | (if ?b then _ else _) = _ => destruct b
           end; leaf st Hcons Hstep.
Qed.

(** X14.  The buffers, the patch size and the two uniforms stay in step
    through every run of key events and frames: a state with no vertices
    is consistent, as the program is when it starts, and from a consistent
    state every sequence of events that returns leaves a state in which
    [colours] has at least as many entries as [vertices] and, unless
    [vertices] is empty, the patch size is [targetDegree + 1] for the
    current [bezierType] and exactly the matching one of [cubicBezier] and
    [quadraticBezier] is set to 1. *)
Theorem run_keeps_consistent (es : list App.event) :
  (forall st : App.state F, App.vertices st = [] -> App.consistent st)
  /\ (forall st st' : App.state F,
         App.consistent st ->
         App.run LoadFontFile uninit glfw es st = Some st' ->
         App.consistent st').
Proof.
  split.
  - intros st Hempty. split; [rewrite Hempty; apply Nat.le_0_l | now left].
  - induction es as [|e es IH]; intros st st' Hcons Hrun; simpl in Hrun.
    + now injection Hrun as <-.
    + destruct (App.step LoadFontFile uninit glfw st e) as [st1|] eqn:Hstep;
        [|discriminate].
      exact (IH st1 st' (step_consistent st st1 e Hcons Hstep) Hrun).
Qed.

End Keys.

(* ------------------------------------------------------------------ *)
(** * Runs of the further properties *)

Lemma demo_font_in_bounds (c : ascii) : wf_glyph (demo_font c) = true.
Proof.
  unfold demo_font.
  repeat match goal with
         | |- context [Ascii.eqb c ?k] => destruct (Ascii.eqb c k)
         end; reflexivity.
Qed.

Lemma line_font_in_bounds (c : ascii) : wf_glyph (line_font c) = true.
Proof.
  unfold line_font.
  repeat match goal with
         | |- context [Ascii.eqb c ?k] => destruct (Ascii.eqb c k)
         end; reflexivity.
Qed.

Lemma line_font_lines (c : ascii) :
  Forall (fun s : MySegment Z => degree s = 1 \/ degree s = 3)
         (segments (line_font c)).
Proof.
  unfold line_font.
  repeat match goal with
         | |- context [Ascii.eqb c ?k] => destruct (Ascii.eqb c k)
         end; repeat constructor.
Qed.

Lemma text_font_in_bounds (c : ascii) : wf_glyph (text_font c) = true.
Proof.
  unfold text_font.
  repeat match goal with
         | |- context [Ascii.eqb c ?k] => destruct (Ascii.eqb c k)
         end; reflexivity.
Qed.

Lemma text_font_lines (b : BezierCurve) (c : ascii) :
  Forall (fun s : MySegment Q => degree s = 1 \/ degree s = targetDegree b)
         (segments (text_font c)).
Proof.
  unfold text_font.
  repeat match goal with
         | |- context [Ascii.eqb c ?k] => destruct (Ascii.eqb c k)
         end; repeat constructor.
Qed.

Lemma demo_LoadFontFile_stable (p : string) (e : ascii -> MyGlyph Q) :
  snd (demo_LoadFontFile p (snd (demo_LoadFontFile p e)))
  = snd (demo_LoadFontFile p e).
Proof.
  unfold demo_LoadFontFile. now destruct (String.eqb p _).
Qed.

Lemma glfw3_keys_differ : NoDup (bound_keys glfw3).
Proof.
  unfold bound_keys, glfw3. simpl.
  repeat (constructor; [simpl; intuition discriminate|]). constructor.
Qed.

Lemma insertGlyphCharacter_returns_iff_in_bounds_witness :
  wf_glyph (ExtractGlyph demo_cubic "B") = true
  /\ exists r, insertGlyphCharacter demo_cubic "B" 10 (-3) 2 [(9, 9)] = Some r.
Proof.
  split; [reflexivity|].
  exact (proj2 (insertGlyphCharacter_returns_iff_in_bounds
                  demo_cubic "B" 10 (-3) 2 [(9, 9)]) eq_refl).
Defined.

Lemma insertGlyphCharacter_point_count_witness :
  wf_glyph (ExtractGlyph demo_cubic "B") = true
  /\ exists out,
      insertGlyphCharacter demo_cubic "B" 10 (-3) 2 [(9, 9)]
      = Some (3, [(9, 9)] ++ out)
      /\ List.length out = (4 + 3)%nat.
Proof.
  split; [reflexivity|].
  exact (insertGlyphCharacter_point_count demo_cubic "B" 10 (-3) 2 [(9, 9)]
           eq_refl).
Defined.

Lemma insertString_only_appends_witness :
  (forall c, wf_glyph (ExtractGlyph demo_quadratic c) = true)
  /\ exists suf,
      insertString demo_quadratic demo_uninit "AB" [(9, 9)]
      = Some (tt, [(9, 9)] ++ suf).
Proof.
  split; [exact demo_font_in_bounds|].
  exact (proj2 (insertString_only_appends demo_quadratic demo_uninit "AB"
                  [(9, 9)]) demo_font_in_bounds).
Defined.

Lemma insertString_stops_reading_at_NUL_witness :
  (list_ascii_of_string (text_with_NUL "B") = ["A"%char] ++ NUL :: ["B"%char]
   /\ list_ascii_of_string (text_with_NUL "Q")
      = ["A"%char] ++ NUL :: ["Q"%char]
   /\ (forall c, In c ["A"%char] -> c <> NUL)
   /\ List.length ["B"%char] = List.length ["Q"%char])
  /\ textCharArr demo_uninit (text_with_NUL "B")
     = ["A"%char; NUL; "?"%char; "?"%char]
  /\ insertString demo_quadratic demo_uninit (text_with_NUL "B") []
     = insertString demo_quadratic demo_uninit (text_with_NUL "Q") [].
Proof.
  assert (forall c, In c ["A"%char] -> c <> NUL) as Hnul
      by (intros c [<-|[]]; discriminate).
  split; [repeat split; exact Hnul|].
  pose proof (insertString_stops_reading_at_NUL demo_quadratic demo_uninit
                (text_with_NUL "B") (text_with_NUL "Q")
                ["A"%char] ["B"%char] ["Q"%char] []
                eq_refl eq_refl Hnul eq_refl) as (Hbuf & _ & Hrun).
  split; [exact Hbuf | exact Hrun].
Defined.

Lemma insertString_shift_keeps_y_witness :
  (forall c, wf_glyph (ExtractGlyph demo_quadratic c) = true)
  /\ exists out out',
      insertString demo_quadratic demo_uninit "AB" [] = Some (tt, [] ++ out)
      /\ insertString (with_fontShiftBy demo_quadratic 7) demo_uninit "AB" []
         = Some (tt, [] ++ out')
      /\ map snd out' = map snd out
      /\ List.length out' = List.length out.
Proof.
  split; [exact demo_font_in_bounds|].
  exact (insertString_shift_keeps_y demo_quadratic demo_uninit "AB" 7 []
           demo_font_in_bounds).
Defined.

Lemma insertString_whole_patches_witness :
  ((forall c, wf_glyph (ExtractGlyph line_cubic c) = true)
   /\ (forall c, Forall (fun s : MySegment Z =>
                           degree s = 1
                           \/ degree s = targetDegree (bezierType line_cubic))
                        (segments (ExtractGlyph line_cubic c))))
  /\ exists out,
      insertString line_cubic demo_uninit "A A" [] = Some (tt, [] ++ out)
      /\ (3 + 1 | Z.of_nat (List.length out)).
Proof.
  split; [split; [exact line_font_in_bounds | exact line_font_lines]|].
  exact (insertString_whole_patches line_cubic demo_uninit "A A" []
           line_font_in_bounds line_font_lines).
Defined.

Lemma demo_loader_is_a_loader :
  In demo_loader (App.loaders demo_LoadFontFile demo_uninit).
Proof. right. left. reflexivity. Qed.

Lemma demo_loader_scrolls :
  In demo_loader (App.scrolling_loaders demo_LoadFontFile demo_uninit).
Proof. left. reflexivity. Qed.

Lemma demo_static_run : demo_loader demo_start = Some demo_static.
Proof. vm_compute. reflexivity. Qed.

Lemma demo_scrolling_run : demo_loader demo_scroll_start = Some demo_scrolling.
Proof. vm_compute. reflexivity. Qed.

Lemma demo_static_font (c : ascii) :
  App.glyphExtractor demo_static c = text_font c.
Proof. reflexivity. Qed.

Lemma demo_scrolling_font (c : ascii) :
  App.glyphExtractor demo_scrolling c = text_font c.
Proof. reflexivity. Qed.


Lemma loader_whole_patches_witness :
  (In demo_loader (App.loaders demo_LoadFontFile demo_uninit)
   /\ demo_loader demo_start = Some demo_static
   /\ (forall c, wf_glyph (App.glyphExtractor demo_static c) = true)
   /\ (forall c, Forall (fun s : MySegment Q =>
                           degree s = 1
                           \/ degree s
                              = targetDegree (App.bezierType demo_static))
                        (segments (App.glyphExtractor demo_static c))))
  /\ App.patchVertices demo_static
     = targetDegree (App.bezierType demo_static) + 1
  /\ (App.patchVertices demo_static
      | Z.of_nat (List.length (App.vertices demo_static))).
Proof.
  assert (forall c, wf_glyph (App.glyphExtractor demo_static c) = true)
    as Hwf by (intros c; rewrite demo_static_font; apply text_font_in_bounds).
  assert (forall c, Forall (fun s : MySegment Q =>
                              degree s = 1
                              \/ degree s
                                 = targetDegree (App.bezierType demo_static))
                           (segments (App.glyphExtractor demo_static c)))
    as Hdeg by (intros c; rewrite demo_static_font; apply text_font_lines).
  split.
  - split; [exact demo_loader_is_a_loader|].
    split; [exact demo_static_run|]. split; assumption.
  - exact (loader_whole_patches demo_LoadFontFile demo_uninit demo_loader
             demo_start demo_static demo_loader_is_a_loader demo_static_run
             Hwf Hdeg).
Defined.

Lemma demo_typed_run : demo_loader demo_typed = Some demo_typed_static.
Proof. vm_compute. reflexivity. Qed.

Lemma static_reload_changes_nothing_witness :
  (In demo_loader (App.loaders demo_LoadFontFile demo_uninit)
   /\ (forall p e,
          snd (demo_LoadFontFile p (snd (demo_LoadFontFile p e)))
          = snd (demo_LoadFontFile p e))
   /\ App.textIsScrolling demo_typed = false
   /\ demo_loader demo_typed = Some demo_typed_static
   /\ fnonzero (App.textScrollSpeed demo_typed) = true
   /\ App.fontLoaded demo_typed = INCONSOLATA)
  /\ (exists c,
         demo_loader demo_typed_static
         = Some (App.set_cout c demo_typed_static))
  /\ App.reload demo_LoadFontFile demo_uninit demo_typed_static
     = App.loadInconsolata demo_LoadFontFile demo_uninit demo_typed_static
  /\ (exists c,
         App.reload demo_LoadFontFile demo_uninit demo_typed_static
         = Some (App.set_cout c demo_typed_static)).
Proof.
  split.
  - split; [exact demo_loader_is_a_loader|].
    split; [exact demo_LoadFontFile_stable|].
    split; [reflexivity|]. split; [exact demo_typed_run|].
    split; reflexivity.
  - pose proof (static_reload_changes_nothing demo_LoadFontFile demo_uninit
                  demo_loader demo_typed demo_typed_static
                  demo_loader_is_a_loader demo_LoadFontFile_stable eq_refl
                  demo_typed_run) as (Hagain & Hframe & Hquiet & _).
    split; [exact Hagain|].
    split; [exact (proj1 (Hframe eq_refl) eq_refl)|].
    exact (Hquiet eq_refl (or_introl (conj eq_refl eq_refl))).
Defined.

Lemma scrolling_reload_keeps_y_witness :
  (In demo_loader (App.scrolling_loaders demo_LoadFontFile demo_uninit)
   /\ (forall p e,
          snd (demo_LoadFontFile p (snd (demo_LoadFontFile p e)))
          = snd (demo_LoadFontFile p e))
   /\ App.textIsScrolling demo_scroll_start = true
   /\ demo_loader demo_scroll_start = Some demo_scrolling
   /\ (forall c, wf_glyph (App.glyphExtractor demo_scrolling c) = true))
  /\ exists st2,
      demo_loader demo_scrolling = Some st2
      /\ map snd (App.vertices st2) = map snd (App.vertices demo_scrolling)
      /\ List.length (App.vertices st2)
         = List.length (App.vertices demo_scrolling)
      /\ App.fontScaleBy st2 = App.fontScaleBy demo_scrolling
      /\ App.fontYShiftBy st2 = App.fontYShiftBy demo_scrolling
      /\ App.bezierType st2 = App.bezierType demo_scrolling
      /\ App.textIsScrolling st2 = true.
Proof.
  assert (forall c, wf_glyph (App.glyphExtractor demo_scrolling c) = true)
    as Hwf
      by (intros c; rewrite demo_scrolling_font; apply text_font_in_bounds).
  split.
  - split; [exact demo_loader_scrolls|].
    split; [exact demo_LoadFontFile_stable|].
    split; [reflexivity|]. split; [exact demo_scrolling_run | exact Hwf].
  - exact (scrolling_reload_keeps_y demo_LoadFontFile demo_uninit
             demo_loader demo_scroll_start demo_scrolling demo_loader_scrolls
             demo_LoadFontFile_stable eq_refl demo_scrolling_run Hwf).
Defined.

Lemma KeyCallback_ignores_other_events_witness :
  (0 <> GLFW_PRESS glfw3 \/ ~ In 65 (bound_keys glfw3))
  /\ App.KeyCallback demo_LoadFontFile demo_uninit glfw3 demo_static
                     65 0 0 0
     = Some demo_static.
Proof.
  assert (0 <> GLFW_PRESS glfw3 \/ ~ In 65 (bound_keys glfw3)) as Hev
      by (left; discriminate).
  split; [exact Hev|].
  exact (KeyCallback_ignores_other_events demo_LoadFontFile demo_uninit glfw3
           demo_static 65 0 0 0 Hev).
Defined.

Lemma figure_keys_witness :
  (NoDup (bound_keys glfw3)
   /\ (81 = GLFW_KEY_Q glfw3 \/ 81 = GLFW_KEY_W glfw3)
   /\ (87 = GLFW_KEY_Q glfw3 \/ 87 = GLFW_KEY_W glfw3))
  /\ (exists st',
         App.KeyCallback demo_LoadFontFile demo_uninit glfw3 demo_static
                         81 0 (GLFW_PRESS glfw3) 0 = Some st'
         /\ App.bezierType st' = QUADRATIC
         /\ App.patchVertices st' = 3
         /\ List.length (App.vertices st') = 12%nat
         /\ List.length (App.colours st') = 22%nat)
  /\ (exists st',
         App.KeyCallback demo_LoadFontFile demo_uninit glfw3 demo_static
                         87 0 (GLFW_PRESS glfw3) 0 = Some st'
         /\ App.bezierType st' = CUBIC
         /\ App.patchVertices st' = 4
         /\ List.length (App.vertices st') = 20%nat
         /\ List.length (App.colours st') = 22%nat).
Proof.
  split;
    [split; [exact glfw3_keys_differ
            |split; [left; reflexivity | right; reflexivity]]|].
  split.
  - destruct (figure_keys demo_LoadFontFile demo_uninit glfw3 demo_static
                81 0 0 glfw3_keys_differ (or_introl eq_refl))
      as (st' & Hrun & _ & _ & Hcol & _ & _ & Hb & Hp & Hlen & _).
    exists st'. repeat split; assumption.
  - destruct (figure_keys demo_LoadFontFile demo_uninit glfw3 demo_static
                87 0 0 glfw3_keys_differ (or_intror eq_refl))
      as (st' & Hrun & _ & _ & Hcol & _ & _ & Hb & Hp & Hlen & _).
    exists st'. repeat split; assumption.
Defined.

Lemma one_variable_keys_witness :
  NoDup (bound_keys glfw3)
  /\ App.KeyCallback demo_LoadFontFile demo_uninit glfw3 demo_static
                     256 0 1 0
     = Some (App.set_windowShouldClose true demo_static).
Proof.
  split; [exact glfw3_keys_differ|].
  exact (proj1 (one_variable_keys demo_LoadFontFile demo_uninit glfw3
                  demo_static 0 0 glfw3_keys_differ)).
Defined.

Lemma run_keeps_consistent_witness :
  (App.vertices demo_start = []
   /\ App.run demo_LoadFontFile demo_uninit glfw3 demo_events demo_start
      = Some (after (App.run demo_LoadFontFile demo_uninit glfw3 demo_events
                             demo_start)))
  /\ App.consistent
       (after (App.run demo_LoadFontFile demo_uninit glfw3 demo_events
                       demo_start)).
Proof.
  assert (App.run demo_LoadFontFile demo_uninit glfw3 demo_events demo_start
          = Some (after (App.run demo_LoadFontFile demo_uninit glfw3
                                 demo_events demo_start))) as Hrun
      by (vm_compute; reflexivity).
  split; [split; [reflexivity | exact Hrun]|].
  exact (proj2 (run_keeps_consistent demo_LoadFontFile demo_uninit glfw3
                  demo_events)
               demo_start _
               (proj1 (run_keeps_consistent demo_LoadFontFile demo_uninit
                         glfw3 demo_events) demo_start eq_refl)
               Hrun).
Defined.

Lemma insertString_reads_index_0_witness :
  wf_glyph (ExtractGlyph demo_quadratic NUL) = true
  /\ insertString demo_quadratic demo_uninit "" [(9, 9)]
     = Some (tt, [(9, 9); (-6, 2); (-6, 2); (-2, 2); (-2, 2); (-2, 2);
                  (-2, 8); (-2, 8); (-2, 8); (-6, 8); (-6, 8); (-6, 8);
                  (-6, 2)]).
Proof.
  split; [reflexivity|].
  exact (proj2 (proj2 (proj2 (insertString_reads_index_0 demo_quadratic
                                demo_uninit [(9, 9)]))) eq_refl).
Defined.
